(** * terrible.cc: the keystream generator and the three command-line modes

    A shallow embedding of [src/terrible.cc].  Bytes ([std::uint8_t]) are
    integers of [Z] with every reduction [% keysize] written out; a
    [std::vector<byte>] is a [list Z] read with stdpp's lookup and updated
    with stdpp's insert, under an explicit bounds test; [std::size_t] is the
    64-bit unsigned type of an LP64 platform, its wrap-around written as
    [mod 2^64].

    A C++ call can end in three ways, and the embedding keeps them apart:
    it returns, it throws, or it leaves the behaviour the language defines
    (an unchecked [operator[]] out of range, a read through an input
    iterator that already reached its end). *)

From Stdlib Require Import ZArith Lia String Ascii.
From stdpp Require Import base tactics option list gmap.

Local Open Scope Z_scope.

(** ** Outcomes of a call *)

(** The two exception classes of [<stdexcept>] the program can raise.  The
    [what()] texts are not modelled. *)
Inductive exception : Type :=
| invalid_argument
| out_of_range.

Inductive outcome (A : Type) : Type :=
| Done (a : A)
| Throw (e : exception)
| Undefined.

Arguments Done {A} a.
Arguments Throw {A} e.
Arguments Undefined {A}.

#[global] Instance outcome_ret : MRet outcome := λ A a, Done a.

#[global] Instance outcome_bind : MBind outcome := λ A B f c,
  match c with
  | Done a => f a
  | Throw e => Throw e
  | Undefined => Undefined
  end.

(** ** Vectors of bytes *)

Definition keysize : Z := 256.

(** [std::size_t] values live in [0, 2^64). *)
Definition size_modulus : Z := 2 ^ 64.

(** [v[i]] as an rvalue: defined only inside the vector. *)
Definition vec_at (v : list Z) (i : Z) : outcome Z :=
  match v !! Z.to_nat i with
  | Some b => Done b
  | None => Undefined
  end.

(** [v[i] = x]: defined only inside the vector. *)
Definition vec_set (v : list Z) (i x : Z) : outcome (list Z) :=
  if decide (Z.to_nat i < length v)%nat
  then Done (<[Z.to_nat i := x]> v)
  else Undefined.

(** [std::swap(v[i], v[j])]: both references are formed, then
    [tmp = v[i]; v[i] = v[j]; v[j] = tmp]. *)
Definition vec_swap (v : list Z) (i j : Z) : outcome (list Z) :=
  tmp ← vec_at v i;
  vj ← vec_at v j;
  v1 ← vec_set v i vj;
  vec_set v1 j tmp.

(** ** class keystream_generator *)

Module keystream_generator.

Record t : Type := Build { m_key : list Z; m_i : Z; m_q : Z }.

(** The constructor: the key is taken over as the working key, [m_i] and
    [m_q] start at zero, and any size other than [keysize] throws. *)
Definition make (key : list Z) : outcome t :=
    if decide (Z.of_nat (length key) ≠ keysize)
    then Throw invalid_argument
    else Done {| m_key := key; m_i := 0; m_q := 0 |}.

(** [operator()]. *)
Definition call (g : t) : outcome (Z * t) :=
    let i := (m_i g + 1) mod size_modulus in
    let h := i mod keysize in
    kh ← vec_at (m_key g) h;
    let q := (m_q g + kh) mod keysize in
    key' ← vec_swap (m_key g) h q;
    a ← vec_at key' h;
    b ← vec_at key' q;
    let w := (a + b) mod keysize in
    r ← vec_at key' w;
    Done (r, {| m_key := key'; m_i := i; m_q := q |}).

Definition key (g : t) : list Z := m_key g.
Definition pos (g : t) : Z := m_i g.

End keystream_generator.

(** ** Input iterators *)

(** What [std::transform] asks of its second range: read the current value,
    step to the next. *)
Class InputIterator (I : Type) : Type := {
  deref : I → outcome Z;
  incr : I → outcome I
}.

(** ** class keystream_iterator *)

Module keystream_iterator.

Record t : Type := Build { m_gen : keystream_generator.t; m_current : Z }.

(** The body shared by both increment operators: [m_current = m_gen()]. *)
Definition advance (g : keystream_generator.t) : outcome t :=
    '(c, g') ← keystream_generator.call g;
    Done {| m_gen := g'; m_current := c |}.

(** The constructor builds the generator and increments once, so the first
    keystream byte is already in [m_current]. *)
Definition make (key : list Z) : outcome t :=
    g ← keystream_generator.make key;
    advance g.

(** [operator*]. *)
Definition star (it : t) : outcome Z := Done (m_current it).

(** [operator++()]. *)
Definition pre_incr (it : t) : outcome t := advance (m_gen it).

(** [operator==]: same working key and same position. *)
Definition eqb (l r : t) : bool :=
    bool_decide (keystream_generator.key (m_gen l) = keystream_generator.key (m_gen r))
    && bool_decide (keystream_generator.pos (m_gen l) = keystream_generator.pos (m_gen r)).

(** [operator!=]. *)
Definition neqb (l r : t) : bool := negb (eqb l r).

(** [struct byte_wrapper], what the postfix increment returns. *)
Record byte_wrapper : Type := Wrap { value : Z }.

(** [operator++(int)]: the byte held before the step, wrapped, and the
    iterator after it. *)
Definition post_incr (it : t) : outcome (byte_wrapper * t) :=
    let retval := {| value := m_current it |} in
    it' ← advance (m_gen it);
    Done (retval, it').

(** [byte_wrapper::operator*]. *)
Definition wrapper_star (w : byte_wrapper) : Z := value w.

(** [n] reads of the form [*it++] in a row: the bytes read and the iterator
    left. *)
Fixpoint post_read_n (n : nat) (it : t) : outcome (list Z * t) :=
    match n with
    | O => Done ([], it)
    | S n' =>
        '(w, it') ← post_incr it;
        '(rest, it'') ← post_read_n n' it';
        Done (wrapper_star w :: rest, it'')
    end.

(** [n] prefix increments in a row. *)
Fixpoint pre_incr_n (n : nat) (it : t) : outcome t :=
    match n with
    | O => Done it
    | S n' => it' ← pre_incr it; pre_incr_n n' it'
    end.

End keystream_iterator.

#[global] Instance keystream_input_iterator : InputIterator keystream_iterator.t := {
  deref := keystream_iterator.star;
  incr := keystream_iterator.pre_incr
}.

(** ** std::istream_iterator<byte> over a stream read with [noskipws] *)

(** The iterator holds the byte it read last and the stream holds the rest,
    so its state is the list of bytes not yet passed: the held byte first.
    The empty list is the end-of-stream iterator, which the standard forbids
    to dereference or to increment. *)
Record istream_iterator : Type := IStream { pending : list Z }.

Definition istream_star (it : istream_iterator) : outcome Z :=
  match pending it with
  | b :: _ => Done b
  | [] => Undefined
  end.

Definition istream_incr (it : istream_iterator) : outcome istream_iterator :=
  match pending it with
  | _ :: rest => Done (IStream rest)
  | [] => Undefined
  end.

#[global] Instance istream_input_iterator : InputIterator istream_iterator := {
  deref := istream_star;
  incr := istream_incr
}.

(** ** Algorithms of the standard library, as the program instantiates them *)

(** [std::transform(first1, {}, first2, out, op)] with [first1] an
    [istream_iterator], given by its pending bytes: the loop runs until
    [first1] is the end-of-stream iterator and never tests [first2].
    Each round writes [op] of the two current values and then increments
    both iterators. *)
Fixpoint transform {I : Type} `{!InputIterator I}
    (first1 : list Z) (first2 : I) (op : Z → Z → Z) : outcome (list Z) :=
  match first1 with
  | [] => Done []
  | a :: first1' =>
      b ← deref first2;
      first2' ← incr first2;
      out ← transform first1' first2' op;
      Done (op a b :: out)
  end.

(** [std::generate_n(out, n, gen)]: [n] calls of [gen], each result written
    to the output.  Also gives back the generator it ends with. *)
Fixpoint generate_n_state (n : nat) (gen : keystream_generator.t)
    : outcome (list Z * keystream_generator.t) :=
  match n with
  | O => Done ([], gen)
  | S n' =>
      '(b, gen') ← keystream_generator.call gen;
      '(out, gen'') ← generate_n_state n' gen';
      Done (b :: out, gen'')
  end.

Definition generate_n (n : nat) (gen : keystream_generator.t) : outcome (list Z) :=
  '(out, _) ← generate_n_state n gen;
  Done out.

(** ** std::stoul *)

(** [unsigned long] has 64 bits on an LP64 platform. *)
Definition ULONG_MAX : Z := 2 ^ 64 - 1.

(** [isspace] and [isdigit] of the C locale. *)
Definition isspace (c : ascii) : bool :=
  let n := N_of_ascii c in
  ((n =? 32) || ((9 <=? n) && (n <=? 13)))%N.

Definition isdigit (c : ascii) : bool :=
  let n := N_of_ascii c in
  ((48 <=? n) && (n <=? 57))%N.

Definition digit_value (c : ascii) : Z := Z.of_N (N_of_ascii c) - 48.

Fixpoint skip_space (s : string) : string :=
  match s with
  | String c rest => if isspace c then skip_space rest else s
  | EmptyString => s
  end.

(** The value of the longest run of decimal digits [s] begins with, on top of
    the digits already accumulated in [acc]. *)
Fixpoint digits_value (s : string) (acc : Z) : Z :=
  match s with
  | String c rest =>
      if isdigit c then digits_value rest (10 * acc + digit_value c) else acc
  | EmptyString => acc
  end.

(** [std::stoul(str)] of the standard library, which is [strtoul] in base 10
    with its two failures turned into exceptions: white space is skipped, one
    sign is accepted, the longest run of digits is converted and whatever
    follows it is ignored.  No digit at that place throws
    [std::invalid_argument]; a magnitude above [ULONG_MAX] throws
    [std::out_of_range]; a minus sign negates the magnitude in
    [unsigned long]. *)
Definition stoul (str : string) : outcome Z :=
  let s := skip_space str in
  let '(neg, s) :=
    match s with
    | String c rest =>
        if (c =? "-")%char then (true, rest)
        else if (c =? "+")%char then (false, rest)
        else (false, s)
    | EmptyString => (false, s)
    end in
  match s with
  | String c _ =>
      if isdigit c then
        let m := digits_value s 0 in
        if decide (ULONG_MAX < m) then Throw out_of_range
        else Done (if neg : bool then (- m) mod (ULONG_MAX + 1) else m)
      else Throw invalid_argument
  | EmptyString => Throw invalid_argument
  end.

(** ** The three modes of [main]

    Each mode is given the bytes its sources hold: the key as [read_key]
    returned it, standard input and the two files as the byte sequences read
    from them with [noskipws].  The result is the sequence written to
    standard output. *)

(** [terrible crypt keyfile]. *)
Definition crypt_mode (key input : list Z) : outcome (list Z) :=
  it ← keystream_iterator.make key;
  transform input it Z.lxor.

(** [terrible keystream keyfile length]: the length is parsed first, then the
    generator is built. *)
Definition keystream_mode (key : list Z) (length_arg : string) : outcome (list Z) :=
  len ← stoul length_arg;
  gen ← keystream_generator.make key;
  generate_n (Z.to_nat len) gen.

(** [terrible xor file_a file_b], both files opened. *)
Definition xor_mode (file_1 file_2 : list Z) : outcome (list Z) :=
  transform file_1 (IStream file_2) Z.lxor.

(** ** [read_key], [usage] and [main]

    The handler at the end of [main] catches [std::exception]: besides the
    two classes above, which derive from [std::logic_error], the program can
    raise [std::runtime_error], from [read_key]. *)
Inductive std_exception : Type :=
| logic_error (e : exception)
| runtime_error.

(** The outcomes of code that can raise any of them. *)
Inductive attempt (A : Type) : Type :=
| Returned (a : A)
| Raised (e : std_exception)
| Unspecified.

Arguments Returned {A} a.
Arguments Raised {A} e.
Arguments Unspecified {A}.

#[global] Instance attempt_ret : MRet attempt := λ A a, Returned a.

#[global] Instance attempt_bind : MBind attempt := λ A B f c,
  match c with
  | Returned a => f a
  | Raised e => Raised e
  | Unspecified => Unspecified
  end.

Definition of_outcome {A : Type} (c : outcome A) : attempt A :=
  match c with
  | Done a => Returned a
  | Throw e => Raised (logic_error e)
  | Undefined => Unspecified
  end.

(** What the program reads of its surroundings: for a file name, the bytes
    of the file if a [std::ifstream], respectively a [std::fstream], on that
    name is open after construction; and the bytes of standard input. *)
Record environment : Type := Environment {
  ifstream_open : string → option (list Z);
  fstream_open : string → option (list Z);
  cin : list Z
}.

(** [std::copy_n(first, n, std::back_inserter(key))] on an
    [istream_iterator]: [n] values are read through [first], which is
    incremented between two reads and not after the last. *)
Fixpoint copy_n (first : istream_iterator) (n : nat) : outcome (list Z) :=
  match n with
  | O => Done []
  | S n' =>
      b ← deref first;
      match n' with
      | O => Done [b]
      | S _ =>
          first' ← incr first;
          rest ← copy_n first' n';
          Done (b :: rest)
      end
  end.

Definition read_key (env : environment) (filename : string) : attempt (list Z) :=
  match ifstream_open env filename with
  | None => Raised runtime_error
  | Some content => of_outcome (copy_n (IStream content) (Z.to_nat keysize))
  end.

(** [usage]: the text goes to standard error, the value is handed back. *)
Definition usage (retval : Z) : Z := retval.

(** [argv[i]]: a string below [argc]. *)
Definition argv_at (argv : list string) (i : nat) : attempt string :=
  match argv !! i with
  | Some s => Returned s
  | None => Unspecified
  end.

(** The [try] block of [main]: the value returned and the bytes written to
    standard output. *)
Definition main_try (env : environment) (argv : list string) : attempt (Z * list Z) :=
  let argc := Z.of_nat (length argv) in
  if decide (argc < 2) then Returned (usage 1, [])
  else
    command ← argv_at argv 1;
    if (command =? "crypt")%string then
      if decide (argc < 3) then Returned (usage 1, [])
      else
        name ← argv_at argv 2;
        key ← read_key env name;
        out ← of_outcome (crypt_mode key (cin env));
        Returned (0, out)
    else if (command =? "keystream")%string then
      if decide (argc < 4) then Returned (usage 1, [])
      else
        name ← argv_at argv 2;
        key ← read_key env name;
        len ← argv_at argv 3;
        out ← of_outcome (keystream_mode key len);
        Returned (0, out)
    else if (command =? "xor")%string then
      if decide (argc < 4) then Returned (usage 1, [])
      else
        name_1 ← argv_at argv 2;
        name_2 ← argv_at argv 3;
        match fstream_open env name_1, fstream_open env name_2 with
        | Some file_1, Some file_2 =>
            out ← of_outcome (xor_mode file_1 file_2);
            Returned (0, out)
        | _, _ => Returned (2, [])
        end
    else Returned (usage 1, []).

(** [main]: every exception of the block is caught and turned into the
    value 3; all of them are raised before the first byte is written. *)
Definition main (env : environment) (argv : list string) : attempt (Z * list Z) :=
  match main_try env argv with
  | Raised _ => Returned (3, [])
  | r => r
  end.

(** Command lines that end in [usage]: no command, an unknown command, or
    fewer arguments than the command needs. *)
Definition usage_error (argv : list string) : bool :=
  match argv with
  | _ :: command :: args =>
      if (command =? "crypt")%string then bool_decide (length args < 1)%nat
      else if (command =? "keystream")%string then bool_decide (length args < 2)%nat
      else if (command =? "xor")%string then bool_decide (length args < 2)%nat
      else true
  | _ => true
  end.

(** ** The five-step algorithm, as the specification words it

    A second description of the generator, written from the specification's
    step algorithm and compared below with [keystream_generator.call]: the
    state keeps the step counter reduced mod 256, and the swap exchanges two
    positions at once. *)

Record spec_state : Type := SpecState {
  working_key : list Z;
  step_counter : Z;
  accumulator : Z
}.

Definition spec_initial (key : list Z) : spec_state :=
  {| working_key := key; step_counter := 0; accumulator := 0 |}.

(** The byte at index [i] of a working key. *)
Definition byte_at (wk : list Z) (i : Z) : Z := default 0 (wk !! Z.to_nat i).

(** Exchange of positions [i] and [j]: nothing changes when [i = j]. *)
Definition spec_swap (wk : list Z) (i j : Z) : list Z :=
  imap (λ k x,
    if decide (Z.of_nat k = i) then byte_at wk j
    else if decide (Z.of_nat k = j) then byte_at wk i
    else x) wk.

Definition spec_step (s : spec_state) : Z * spec_state :=
  let h := (step_counter s + 1) mod 256 in
  let q := (accumulator s + byte_at (working_key s) h) mod 256 in
  let wk := spec_swap (working_key s) h q in
  let w := (byte_at wk h + byte_at wk q) mod 256 in
  (byte_at wk w, {| working_key := wk; step_counter := h; accumulator := q |}).

Fixpoint spec_run (n : nat) (s : spec_state) : list Z * spec_state :=
  match n with
  | O => ([], s)
  | S n' =>
      let '(b, s') := spec_step s in
      let '(out, s'') := spec_run n' s' in
      (b :: out, s'')
  end.

(** What the specification's state records of a generator object. *)
Definition abstraction (g : keystream_generator.t) : spec_state :=
  {| working_key := keystream_generator.m_key g;
     step_counter := keystream_generator.m_i g mod 256;
     accumulator := keystream_generator.m_q g |}.

(** The specification's reading of a length argument: a non-empty string of
    decimal digits, with the number it denotes. *)
Fixpoint numeral_digits (s : string) : option (list Z) :=
  match s with
  | EmptyString => Some []
  | String c rest =>
      if isdigit c then ds ← numeral_digits rest; Some (digit_value c :: ds)
      else None
  end.

Fixpoint digits_number (ds : list Z) : Z :=
  match ds with
  | [] => 0
  | d :: rest => d * 10 ^ Z.of_nat (length rest) + digits_number rest
  end.

Definition decimal_numeral (s : string) : option Z :=
  match s with
  | EmptyString => None
  | _ => ds ← numeral_digits s; Some (digits_number ds)
  end.

(** Arguments in which [strtoul] finds nothing to convert: after the white
    space and at most one sign there is no digit. *)
Definition starts_with_digit (s : string) : bool :=
  match s with
  | String c _ => isdigit c
  | EmptyString => false
  end.

Inductive no_conversion : string → Prop :=
| no_conversion_space c s :
    isspace c = true → no_conversion s → no_conversion (String c s)
| no_conversion_end : no_conversion EmptyString
| no_conversion_sign c s :
    c = "+"%char ∨ c = "-"%char → starts_with_digit s = false →
    no_conversion (String c s)
| no_conversion_other c s :
    isspace c = false → c ≠ "+"%char → c ≠ "-"%char → isdigit c = false →
    no_conversion (String c s).

(** Strings made of white space only. *)
Fixpoint all_space (s : string) : bool :=
  match s with
  | EmptyString => true
  | String c rest => isspace c && all_space rest
  end.

(** An environment that differs in standard input only. *)
Definition with_cin (env : environment) (input : list Z) : environment :=
  {| ifstream_open := ifstream_open env;
     fstream_open := fstream_open env;
     cin := input |}.

(** ** Keys used as test vectors *)

(** The identity sequence 0, 1, ..., 255. *)
Definition identity_key : list Z := Z.of_nat <$> seq 0 256.

(** 256 zero bytes. *)
Definition zero_key : list Z := replicate 256 0.

(** An environment used as a test vector: a key file of 257 bytes, a key
    file of 3 bytes, two data files, and three bytes on standard input. *)
Definition sample_environment : environment :=
  {| ifstream_open := λ name,
       if (name =? "key")%string then Some (identity_key ++ [10])
       else if (name =? "short")%string then Some [1; 2; 3]
       else None;
     fstream_open := λ name,
       if (name =? "a")%string then Some [1; 2]
       else if (name =? "b")%string then Some [3; 4; 5]
       else None;
     cin := [104; 105; 33] |}.

(** ** Generators that satisfy the class invariant *)

Definition valid (g : keystream_generator.t) : Prop :=
  length (keystream_generator.m_key g) = 256%nat.

(** ** Objects of the class in memory

    A client of the class holds vectors of bytes and generator objects at
    addresses of its own.  The members [m_key], [m_i] and [m_q] are
    non-static, so each object carries its own; the class has no other
    variable ([keysize] is a constant).  The constructor takes its key by
    value: it reads the caller's vector, which stays what it was, and the
    object works on a copy.  [operator()] names nothing but the members of
    the object it is called on. *)
Record memory : Type := Memory {
  vectors : gmap nat (list Z);
  generators : gmap nat keystream_generator.t
}.

(** The two things a client does with the class, each through addresses:
    [keystream_generator obj{key_var};] and [out = obj();]. *)
Inductive statement : Type :=
| construct (obj key_var : nat)
| invoke (obj : nat).

(** One statement: the memory it leaves and the bytes it hands out, each
    with the object that returned it. *)
Definition execute (s : statement) (m : memory)
    : outcome (memory * list (nat * Z)) :=
  match s with
  | construct obj key_var =>
      match vectors m !! key_var with
      | None => Undefined
      | Some key =>
          g ← keystream_generator.make key;
          Done ({| vectors := vectors m;
                   generators := <[obj := g]> (generators m) |}, [])
      end
  | invoke obj =>
      match generators m !! obj with
      | None => Undefined
      | Some g =>
          '(b, g') ← keystream_generator.call g;
          Done ({| vectors := vectors m;
                   generators := <[obj := g']> (generators m) |}, [(obj, b)])
      end
  end.

Fixpoint run (prog : list statement) (m : memory)
    : outcome (memory * list (nat * Z)) :=
  match prog with
  | [] => Done (m, [])
  | s :: prog' =>
      '(m1, events1) ← execute s m;
      '(m2, events2) ← run prog' m1;
      Done (m2, events1 ++ events2)
  end.

(** The bytes one object returned, in order. *)
Definition bytes_of (obj : nat) (events : list (nat * Z)) : list Z :=
  snd <$> filter (λ e, e.1 = obj) events.

(** A memory whose objects were all constructed from the vector at
    [key_var], which holds [key], with the bytes handed out so far: every
    object is where a lone generator on [key] is after returning the bytes
    this object returned. *)
Definition consistent (key : list Z) (key_var : nat) (m : memory)
    (events : list (nat * Z)) : Prop :=
  vectors m !! key_var = Some key
  ∧ (∀ obj g, generators m !! obj = Some g →
       generate_n_state (length (bytes_of obj events))
         {| keystream_generator.m_key := key;
            keystream_generator.m_i := 0;
            keystream_generator.m_q := 0 |}
       = Done (bytes_of obj events, g))
  ∧ (∀ obj, generators m !! obj = None → bytes_of obj events = []).

(** * Proofs *)

Section Outcome.
Context {A B : Type}.

Lemma bind_Done (a : A) (f : A → outcome B) : (Done a ≫= f) = f a.
Proof. reflexivity. Qed.

Lemma bind_Done_inv (c : outcome A) (f : A → outcome B) (b : B) :
  (c ≫= f) = Done b → ∃ a, c = Done a ∧ f a = Done b.
Proof. destruct c as [a| |]; simpl; intros Hc; try discriminate. eauto. Qed.
End Outcome.

Section Vectors.
Implicit Types (v : list Z) (i j x : Z).

Lemma vec_at_Done v i :
  0 ≤ i < Z.of_nat (length v) → vec_at v i = Done (byte_at v i).
Proof.
  intros Hi. unfold vec_at, byte_at.
  destruct (lookup_lt_is_Some_2 v (Z.to_nat i)) as [b Hb]; [lia|].
  by rewrite Hb.
Qed.

Lemma vec_at_lookup v i b : vec_at v i = Done b → v !! Z.to_nat i = Some b.
Proof. unfold vec_at. destruct (v !! Z.to_nat i); congruence. Qed.

Lemma lookup_byte_at v i :
  0 ≤ i < Z.of_nat (length v) → v !! Z.to_nat i = Some (byte_at v i).
Proof. intros Hi. apply vec_at_lookup. by apply vec_at_Done. Qed.

Lemma vec_set_Done v i x :
  0 ≤ i < Z.of_nat (length v) → vec_set v i x = Done (<[Z.to_nat i := x]> v).
Proof. intros Hi. unfold vec_set. case_decide; [done | lia]. Qed.

Lemma vec_swap_Done v i j :
  0 ≤ i < Z.of_nat (length v) → 0 ≤ j < Z.of_nat (length v) →
  vec_swap v i j
  = Done (<[Z.to_nat j := byte_at v i]> (<[Z.to_nat i := byte_at v j]> v)).
Proof.
  intros Hi Hj. unfold vec_swap.
  rewrite !vec_at_Done by done. simpl.
  rewrite vec_set_Done by done. simpl.
  apply vec_set_Done. by rewrite length_insert.
Qed.

(** The three assignments of [std::swap] amount to the exchange of the
    specification, also when both indices coincide. *)
Lemma swap_is_spec_swap v i j :
  0 ≤ i < Z.of_nat (length v) → 0 ≤ j < Z.of_nat (length v) →
  <[Z.to_nat j := byte_at v i]> (<[Z.to_nat i := byte_at v j]> v)
  = spec_swap v i j.
Proof.
  intros Hi Hj. apply list_eq. intros k. unfold spec_swap.
  rewrite list_lookup_imap, !list_lookup_insert, length_insert.
  destruct (v !! k) as [x|] eqn:Hk; simpl.
  - apply lookup_lt_Some in Hk.
    repeat case_decide; try lia; try done.
    replace i with j by lia. done.
  - apply lookup_ge_None in Hk. repeat case_decide; try lia; done.
Qed.

Lemma swap_Permutation v i j :
  0 ≤ i < Z.of_nat (length v) → 0 ≤ j < Z.of_nat (length v) →
  <[Z.to_nat j := byte_at v i]> (<[Z.to_nat i := byte_at v j]> v) ≡ₚ v.
Proof. intros Hi Hj. apply Permutation_insert_swap; by apply lookup_byte_at. Qed.

Lemma byte_at_elem_of v i : 0 ≤ i < Z.of_nat (length v) → byte_at v i ∈ v.
Proof. intros Hi. eapply list_elem_of_lookup_2. by apply lookup_byte_at. Qed.
End Vectors.

Section Generator.
Import keystream_generator.
Implicit Types (g : keystream_generator.t) (key : list Z).

(** One call on a valid generator, in closed form: every index the body forms
    lies inside the working key, so the call returns. *)
Lemma call_Done g :
  valid g →
  let i := (m_i g + 1) mod size_modulus in
  let h := i mod 256 in
  let q := (m_q g + byte_at (m_key g) h) mod 256 in
  let key' :=
    <[Z.to_nat q := byte_at (m_key g) h]>
      (<[Z.to_nat h := byte_at (m_key g) q]> (m_key g)) in
  call g
  = Done (byte_at key' ((byte_at key' h + byte_at key' q) mod 256),
          {| m_key := key'; m_i := i; m_q := q |}).
Proof.
  intros Hlen i h q key'. unfold valid in Hlen.
  assert (0 ≤ h < 256) as Hh by (apply Z.mod_pos_bound; lia).
  assert (0 ≤ q < 256) as Hq by (apply Z.mod_pos_bound; lia).
  assert (length key' = 256%nat) as Hlen'
    by (unfold key'; by rewrite !length_insert).
  unfold call, keysize. fold i. fold h.
  rewrite vec_at_Done by lia. simpl. fold q.
  rewrite vec_swap_Done by lia. simpl. fold key'.
  do 2 (rewrite vec_at_Done by lia; simpl).
  rewrite vec_at_Done by (rewrite Hlen'; apply Z.mod_pos_bound; lia).
  reflexivity.
Qed.

Lemma call_valid g b g' : valid g → call g = Done (b, g') → valid g'.
Proof.
  intros Hg. rewrite (call_Done g Hg). intros [= _ <-].
  unfold valid in *. simpl. by rewrite !length_insert.
Qed.

Lemma call_total g : valid g → ∃ b g', call g = Done (b, g') ∧ valid g'.
Proof.
  intros Hg. pose proof (call_Done g Hg) as Hc. simpl in Hc.
  eexists _, _. split; [exact Hc|]. eapply call_valid; [exact Hg | exact Hc].
Qed.

Lemma call_Permutation g b g' :
  valid g → call g = Done (b, g') → m_key g' ≡ₚ m_key g.
Proof.
  intros Hg. rewrite (call_Done g Hg). intros [= _ <-]. simpl.
  unfold valid in Hg.
  apply swap_Permutation; rewrite Hg; apply Z.mod_pos_bound; lia.
Qed.

Lemma call_elem_of g b g' : valid g → call g = Done (b, g') → b ∈ m_key g'.
Proof.
  intros Hg Hc. pose proof (call_valid _ _ _ Hg Hc) as Hg'. revert Hc.
  rewrite (call_Done g Hg). intros [= <- <-].
  apply byte_at_elem_of. simpl. unfold valid in Hg.
  rewrite !length_insert, Hg. apply Z.mod_pos_bound. lia.
Qed.

Lemma call_m_i g b g' :
  valid g → call g = Done (b, g') → m_i g' = (m_i g + 1) mod size_modulus.
Proof. intros Hg. rewrite (call_Done g Hg). by intros [= _ <-]. Qed.

(** The counter of the specification is the position reduced mod 256: the
    wrap of [std::size_t] at [2^64] is invisible through it. *)
Lemma size_wrap_mod_256 (n : Z) : (n mod size_modulus) mod 256 = n mod 256.
Proof. apply Z.mod_mod_divide. exists (2 ^ 56). unfold size_modulus. lia. Qed.

(** One call of the code is one step of the specification. *)
Lemma call_refines_spec_step g b g' :
  valid g → call g = Done (b, g') → spec_step (abstraction g) = (b, abstraction g').
Proof.
  intros Hg. rewrite (call_Done g Hg). intros [= <- <-].
  unfold valid in Hg. unfold spec_step, abstraction. simpl.
  rewrite size_wrap_mod_256, Zplus_mod_idemp_l.
  set (h := (m_i g + 1) mod 256).
  set (q := (m_q g + byte_at (m_key g) h) mod 256).
  rewrite swap_is_spec_swap by (rewrite Hg; apply Z.mod_pos_bound; lia).
  reflexivity.
Qed.

Lemma make_Done key :
  length key = 256%nat → make key = Done {| m_key := key; m_i := 0; m_q := 0 |}.
Proof. intros Hk. unfold make, keysize. case_decide; [lia | done]. Qed.

Lemma make_Throw key : length key ≠ 256%nat → make key = Throw invalid_argument.
Proof. intros Hk. unfold make, keysize. case_decide; [done | lia]. Qed.

(** [n] calls in a row. *)
Lemma generate_n_state_total n g :
  valid g → ∃ out g', generate_n_state n g = Done (out, g') ∧ valid g'.
Proof.
  revert g. induction n as [|n IH]; intros g Hg; simpl.
  - eauto.
  - destruct (call_total g Hg) as (b & g1 & -> & Hg1). simpl.
    destruct (IH g1 Hg1) as (out & g2 & -> & Hg2). simpl. eauto.
Qed.

Lemma generate_n_state_S n g b g1 out g2 :
  call g = Done (b, g1) → generate_n_state n g1 = Done (out, g2) →
  generate_n_state (S n) g = Done (b :: out, g2).
Proof. intros Hc Hr. simpl. rewrite Hc. simpl. by rewrite Hr. Qed.

Lemma generate_n_state_inv n g out g' :
  generate_n_state (S n) g = Done (out, g') →
  ∃ b g1 out1, call g = Done (b, g1) ∧ generate_n_state n g1 = Done (out1, g')
               ∧ out = b :: out1.
Proof.
  simpl. intros H.
  apply bind_Done_inv in H as ([b g1] & Hc & H).
  apply bind_Done_inv in H as ([out1 g2] & Hr & [= <- <-]).
  eauto 6.
Qed.

Lemma generate_n_state_length n g out g' :
  generate_n_state n g = Done (out, g') → length out = n.
Proof.
  revert g out. induction n as [|n IH]; intros g out.
  - by intros [= <- _].
  - intros (b & g1 & out1 & _ & Hr & ->)%generate_n_state_inv.
    simpl. f_equal. eauto.
Qed.

Lemma generate_n_of_state n g out g' :
  generate_n_state n g = Done (out, g') → generate_n n g = Done out.
Proof. intros H. unfold generate_n. by rewrite H. Qed.

End Generator.

Section Runs.
Import keystream_generator.
Implicit Types (g : keystream_generator.t) (key out : list Z).

Lemma generate_n_S n g b g1 out :
  call g = Done (b, g1) → generate_n n g1 = Done out →
  generate_n (S n) g = Done (b :: out).
Proof.
  unfold generate_n. simpl. intros -> Hr. simpl.
  destruct (generate_n_state n g1) as [[o s]| |]; simpl in *; congruence.
Qed.

Lemma generate_n_state_of n g out :
  generate_n n g = Done out → ∃ g', generate_n_state n g = Done (out, g').
Proof.
  unfold generate_n.
  intros ([o g'] & Hr & [= <-])%bind_Done_inv. eauto.
Qed.

Lemma generate_n_state_valid n g out g' :
  valid g → generate_n_state n g = Done (out, g') → valid g'.
Proof.
  intros Hg Hr. destruct (generate_n_state_total n g Hg) as (o & g2 & Hr' & Hg2).
  congruence.
Qed.

(** The working key is only ever rearranged. *)
Lemma generate_n_state_Permutation n g out g' :
  valid g → generate_n_state n g = Done (out, g') → m_key g' ≡ₚ m_key g.
Proof.
  revert g out. induction n as [|n IH]; intros g out Hg.
  - by intros [= _ <-].
  - intros (b & g1 & out1 & Hc & Hr & _)%generate_n_state_inv.
    etrans; [eapply IH; [eapply call_valid|]; eassumption|].
    by eapply call_Permutation.
Qed.

(** Every byte a run writes is a byte of the working key it started from. *)
Lemma generate_n_state_elem_of n g out g' b :
  valid g → generate_n_state n g = Done (out, g') → b ∈ out → b ∈ m_key g.
Proof.
  revert g out. induction n as [|n IH]; intros g out Hg.
  - intros [= <- _]. by intros ?%elem_of_nil.
  - intros (b1 & g1 & out1 & Hc & Hr & ->)%generate_n_state_inv.
    pose proof (call_valid _ _ _ Hg Hc) as Hg1.
    rewrite <- (call_Permutation _ _ _ Hg Hc).
    intros [-> | Hin]%elem_of_cons.
    + exact (call_elem_of _ _ _ Hg Hc).
    + exact (IH g1 out1 Hg1 Hr Hin).
Qed.

(** A run of the code is a run of the specification's machine. *)
Lemma generate_n_state_refines n g out g' :
  valid g → generate_n_state n g = Done (out, g') →
  spec_run n (abstraction g) = (out, abstraction g').
Proof.
  revert g out. induction n as [|n IH]; intros g out Hg.
  - by intros [= <- <-].
  - intros (b & g1 & out1 & Hc & Hr & ->)%generate_n_state_inv.
    cbn [spec_run]. rewrite (call_refines_spec_step _ _ _ Hg Hc).
    by rewrite (IH g1 out1 (call_valid _ _ _ Hg Hc) Hr).
Qed.

Lemma generate_n_state_m_i n g out g' :
  valid g → generate_n_state n g = Done (out, g') →
  m_i g' mod 256 = (m_i g + Z.of_nat n) mod 256.
Proof.
  revert g out. induction n as [|n IH]; intros g out Hg.
  - intros [= _ <-]. f_equal. lia.
  - intros (b & g1 & out1 & Hc & Hr & _)%generate_n_state_inv.
    rewrite (IH g1 out1 (call_valid _ _ _ Hg Hc) Hr).
    rewrite (call_m_i _ _ _ Hg Hc).
    rewrite <- Zplus_mod_idemp_l, size_wrap_mod_256, Zplus_mod_idemp_l.
    f_equal. lia.
Qed.

(** The integers of the embedding stay bytes: a run on a key of values in
    [0, 256) writes values in [0, 256). *)
Lemma generate_n_state_bytes n g out g' :
  valid g → Forall (λ b, 0 ≤ b < 256) (m_key g) →
  generate_n_state n g = Done (out, g') → Forall (λ b, 0 ≤ b < 256) out.
Proof.
  intros Hg Hkey Hr. apply Forall_forall. intros b Hb.
  eapply (proj1 (Forall_forall _ _) Hkey).
  by eapply generate_n_state_elem_of.
Qed.

(** The same bytes come first however many are asked for. *)
Lemma generate_n_state_prefix n m g out g' :
  valid g → (n ≤ m)%nat → generate_n_state m g = Done (out, g') →
  ∃ g'', generate_n_state n g = Done (take n out, g'').
Proof.
  revert m g out. induction n as [|n IH]; intros m g out Hg Hnm Hr.
  - simpl. eauto.
  - destruct m as [|m]; [lia|].
    apply generate_n_state_inv in Hr as (b & g1 & out1 & Hc & Hr & ->).
    destruct (IH m g1 out1) as (g'' & Hn); [by eapply call_valid | lia | done |].
    exists g''. rewrite firstn_cons. by eapply generate_n_state_S.
Qed.

End Runs.

Section Transform.
Import keystream_generator.
Implicit Types (g : keystream_generator.t) (a b data ks : list Z).

(** Two files: as long as the second one has a byte for every byte of the
    first, the loop pairs them off position by position. *)
Lemma transform_istream_Done a b :
  (length a ≤ length b)%nat →
  transform a (IStream b) Z.lxor = Done (zip_with Z.lxor a b).
Proof.
  revert b. induction a as [|x a IH]; intros b Hlen; [done|].
  destruct b as [|y b]; simpl in Hlen; [lia|].
  cbn. rewrite IH by lia. reflexivity.
Qed.

(** When the second file ends first, the loop still goes on and reads
    through the second iterator at its end. *)
Lemma transform_istream_Undefined a b :
  (length b < length a)%nat → transform a (IStream b) Z.lxor = Undefined.
Proof.
  revert b. induction a as [|x a IH]; intros b Hlen; simpl in Hlen; [lia|].
  destruct b as [|y b]; [done|]. simpl in Hlen.
  cbn. rewrite IH by lia. reflexivity.
Qed.

(** The iterator runs one call ahead of a generator that is called
    directly, and hands out the very same bytes. *)
Lemma transform_keystream data g c g' :
  valid g → call g = Done (c, g') →
  ∃ ks, generate_n (length data) g = Done ks
        ∧ length ks = length data
        ∧ transform data (keystream_iterator.Build g' c) Z.lxor
          = Done (zip_with Z.lxor data ks).
Proof.
  revert g c g'. induction data as [|x data IH]; intros g c g' Hg Hc.
  - exists []. done.
  - pose proof (call_valid _ _ _ Hg Hc) as Hg'.
    destruct (call_total g' Hg') as (c' & g'' & Hc' & _).
    destruct (IH g' c' g'' Hg' Hc') as (ks & Hks & Hlen & Ht).
    exists (c :: ks). split_and!.
    + by eapply generate_n_S.
    + simpl. by rewrite Hlen.
    + cbn. unfold keystream_iterator.pre_incr, keystream_iterator.advance.
      cbn. rewrite Hc'. cbn. rewrite Ht. reflexivity.
Qed.

Lemma crypt_mode_keystream key data :
  length key = 256%nat →
  ∃ g ks, make key = Done g
          ∧ generate_n (length data) g = Done ks
          ∧ length ks = length data
          ∧ crypt_mode key data = Done (zip_with Z.lxor data ks).
Proof.
  intros Hk. pose proof (make_Done key Hk) as Hm.
  set (g := {| m_key := key; m_i := 0; m_q := 0 |}) in Hm.
  assert (valid g) as Hg by exact Hk.
  destruct (call_total g Hg) as (c & g' & Hc & _).
  destruct (transform_keystream data g c g' Hg Hc) as (ks & Hks & Hlen & Ht).
  exists g, ks. split_and!; try done.
  unfold crypt_mode, keystream_iterator.make, keystream_iterator.advance.
  rewrite Hm. cbn. rewrite Hc. cbn. exact Ht.
Qed.

Lemma zip_with_lxor_twice data ks :
  (length data ≤ length ks)%nat →
  zip_with Z.lxor (zip_with Z.lxor data ks) ks = data.
Proof.
  revert ks. induction data as [|x data IH]; intros [|k ks] Hlen;
    simpl in *; try done; try lia.
  rewrite IH by lia. f_equal.
  by rewrite Z.lxor_assoc, Z.lxor_nilpotent, Z.lxor_0_r.
Qed.

End Transform.

Section Stoul.
Implicit Types (s : string) (c : ascii).

Lemma isdigit_not_space c : isdigit c = true → isspace c = false.
Proof.
  unfold isdigit, isspace. generalize (N_of_ascii c). intros n Hd.
  apply andb_true_iff in Hd as [H1%N.leb_le H2%N.leb_le].
  apply orb_false_iff. split.
  - apply N.eqb_neq. lia.
  - apply andb_false_iff. right. apply N.leb_gt. lia.
Qed.

Lemma isdigit_not_sign c :
  isdigit c = true → (c =? "-")%char = false ∧ (c =? "+")%char = false.
Proof.
  intros Hd.
  split; apply Ascii.eqb_neq; intros ->; vm_compute in Hd; discriminate.
Qed.

Lemma digit_value_bounds c : isdigit c = true → 0 ≤ digit_value c ≤ 9.
Proof.
  unfold isdigit, digit_value. generalize (N_of_ascii c). intros n Hd.
  apply andb_true_iff in Hd as [H1%N.leb_le H2%N.leb_le]. lia.
Qed.

(** The accumulating loop of the conversion computes the positional value of
    the digits. *)
Lemma digits_value_numeral s ds acc :
  numeral_digits s = Some ds →
  digits_value s acc = acc * 10 ^ Z.of_nat (length ds) + digits_number ds.
Proof.
  revert ds acc. induction s as [|c s IH]; intros ds acc; simpl.
  - intros [= <-]. cbn [length digits_number]. change (Z.of_nat 0) with 0.
    rewrite Z.pow_0_r. lia.
  - destruct (isdigit c); [|done].
    destruct (numeral_digits s) as [ds'|]; [|done].
    intros [= <-]. rewrite (IH ds' _ eq_refl).
    cbn [length digits_number].
    rewrite Nat2Z.inj_succ, Z.pow_succ_r by lia.
    generalize (10 ^ Z.of_nat (length ds')). intros p. lia.
Qed.

Lemma numeral_digits_nonneg s ds :
  numeral_digits s = Some ds → 0 ≤ digits_number ds.
Proof.
  revert ds. induction s as [|c s IH]; intros ds; simpl.
  - by intros [= <-].
  - destruct (isdigit c) eqn:Hd; [|done].
    destruct (numeral_digits s) as [ds'|]; [|done].
    intros [= <-]. cbn [digits_number].
    pose proof (digit_value_bounds c Hd). pose proof (IH ds' eq_refl).
    assert (0 ≤ 10 ^ Z.of_nat (length ds')) by (apply Z.pow_nonneg; lia).
    nia.
Qed.

Lemma decimal_numeral_nonneg s n : decimal_numeral s = Some n → 0 ≤ n.
Proof.
  destruct s as [|c s]; [done|]. unfold decimal_numeral.
  destruct (numeral_digits (String c s)) as [ds|] eqn:Hds; [|done].
  intros [= <-]. by eapply numeral_digits_nonneg.
Qed.

Lemma skip_space_stop c s :
  isspace c = false → skip_space (String c s) = String c s.
Proof. intros Hc. simpl. by rewrite Hc. Qed.

Lemma stoul_numeral s n :
  decimal_numeral s = Some n →
  stoul s = if decide (ULONG_MAX < n) then Throw out_of_range else Done n.
Proof.
  destruct s as [|c s]; [done|]. unfold decimal_numeral.
  destruct (numeral_digits (String c s)) as [ds|] eqn:Hds; [|done].
  intros [= <-].
  assert (isdigit c = true) as Hd
    by (simpl in Hds; destruct (isdigit c); done).
  destruct (isdigit_not_sign c Hd) as [Hm Hp].
  unfold stoul. cbn [skip_space].
  rewrite (isdigit_not_space c Hd), Hm, Hp, Hd.
  rewrite (digits_value_numeral _ ds 0 Hds). simpl (0 * _ + _).
  reflexivity.
Qed.

Lemma stoul_no_conversion s : no_conversion s → stoul s = Throw invalid_argument.
Proof.
  induction 1 as [c s Hsp _ IH| |c s Hsign Hnd|c s Hsp Hp Hm Hd].
  - unfold stoul in *. cbn [skip_space]. by rewrite Hsp.
  - reflexivity.
  - destruct s as [|d s]; simpl in Hnd.
    + by destruct Hsign as [-> | ->].
    + destruct Hsign as [-> | ->]; unfold stoul;
        rewrite skip_space_stop by reflexivity;
        cbn -[isdigit digits_value]; by rewrite Hnd.
  - unfold stoul. cbn [skip_space]. rewrite Hsp.
    apply Ascii.eqb_neq in Hp, Hm. by rewrite Hm, Hp, Hd.
Qed.

End Stoul.

Section Objects.
Import keystream_generator.
Implicit Types (g : keystream_generator.t) (key out : list Z) (m : memory)
               (events : list (nat * Z)) (obj key_var : nat).

Lemma generate_n_state_snoc (n : nat) g out g1 (b : Z) g2 :
  valid g → generate_n_state n g = Done (out, g1) → call g1 = Done (b, g2) →
  generate_n_state (S n) g = Done (out ++ [b], g2).
Proof.
  revert g out. induction n as [|n IH]; intros g out Hg.
  - intros [= <- <-] Hc. by eapply generate_n_state_S.
  - intros (b0 & g' & out1 & Hc0 & Hr & ->)%generate_n_state_inv Hc.
    eapply generate_n_state_S; [exact Hc0|].
    eapply IH; [by eapply call_valid | exact Hr | exact Hc].
Qed.

Lemma bytes_of_app obj events events' :
  bytes_of obj (events ++ events') = bytes_of obj events ++ bytes_of obj events'.
Proof. unfold bytes_of. by rewrite filter_app, fmap_app. Qed.

Lemma bytes_of_length obj events :
  length (bytes_of obj events)
  = length (filter (λ o, o = obj) (fst <$> events)).
Proof.
  unfold bytes_of. rewrite length_fmap.
  induction events as [|[o b] events IH]; [done|].
  rewrite fmap_cons, !filter_cons. cbn [fst].
  destruct (decide (o = obj)); simpl; by rewrite IH.
Qed.

Lemma run_app (prog prog' : list statement) m :
  run (prog ++ prog') m
  = '(m1, events1) ← run prog m;
    '(m2, events2) ← run prog' m1;
    Done (m2, events1 ++ events2).
Proof.
  revert m. induction prog as [|s prog IH]; intros m; simpl.
  - by destruct (run prog' m) as [[m2 events2]| |].
  - destruct (execute s m) as [[m1 events1]| |]; simpl; [|done..].
    rewrite IH. destruct (run prog m1) as [[m2 events2]| |]; simpl; [|done..].
    destruct (run prog' m2) as [[m3 events3]| |]; simpl; [|done..].
    by rewrite app_assoc.
Qed.

(** A call on one object: it returns, and the other objects and the
    caller's vector are where they were. *)
Lemma execute_invoke key key_var m events obj g :
  length key = 256%nat → consistent key key_var m events →
  generators m !! obj = Some g →
  ∃ m' b,
    execute (invoke obj) m = Done (m', [(obj, b)])
    ∧ consistent key key_var m' (events ++ [(obj, b)])
    ∧ ∀ obj', is_Some (generators m' !! obj') ↔ is_Some (generators m !! obj').
Proof.
  intros Hk (Hvec & Hobjs & Hnone) Hg.
  pose proof (Hobjs obj g Hg) as Hr.
  pose proof (generate_n_state_valid _ {| m_key := key; m_i := 0; m_q := 0 |}
                _ _ Hk Hr) as Hvalid.
  destruct (call_total g Hvalid) as (b & g' & Hc & _).
  eexists _, b. split_and!.
  - simpl. rewrite Hg. simpl. rewrite Hc. reflexivity.
  - split_and!; simpl.
    + exact Hvec.
    + intros obj' g''. rewrite bytes_of_app.
      destruct (decide (obj' = obj)) as [->|Hne].
      * rewrite lookup_insert_eq. intros [= <-].
        change (bytes_of obj [(obj, b)]) with
          (snd <$> filter (λ e, e.1 = obj) [(obj, b)]).
        rewrite filter_cons. simpl. case_decide; [|done]. simpl.
        rewrite length_app. simpl. rewrite Nat.add_1_r.
        by eapply generate_n_state_snoc.
      * rewrite lookup_insert_ne by done. intros Hg''.
        change (bytes_of obj' [(obj, b)]) with
          (snd <$> filter (λ e, e.1 = obj') [(obj, b)]).
        rewrite filter_cons. simpl. case_decide; [done|]. simpl.
        rewrite app_nil_r. by apply Hobjs.
    + intros obj'. rewrite bytes_of_app.
      destruct (decide (obj' = obj)) as [->|Hne].
      * by rewrite lookup_insert_eq.
      * rewrite lookup_insert_ne by done. intros Hn.
        change (bytes_of obj' [(obj, b)]) with
          (snd <$> filter (λ e, e.1 = obj') [(obj, b)]).
        rewrite filter_cons. simpl. case_decide; [done|]. simpl.
        rewrite app_nil_r. by apply Hnone.
  - intros obj'. simpl. destruct (decide (obj' = obj)) as [->|Hne].
    + rewrite lookup_insert_eq, Hg. split; eauto.
    + by rewrite lookup_insert_ne.
Qed.

(** A construction at an address not used before: it returns, reads the
    caller's vector and leaves it and the other objects where they were. *)
Lemma execute_construct key key_var m events obj :
  length key = 256%nat → consistent key key_var m events →
  generators m !! obj = None →
  ∃ m',
    execute (construct obj key_var) m = Done (m', [])
    ∧ consistent key key_var m' events
    ∧ ∀ obj', is_Some (generators m' !! obj')
              ↔ obj' = obj ∨ is_Some (generators m !! obj').
Proof.
  intros Hk (Hvec & Hobjs & Hnone) Hfree.
  eexists. split_and!.
  - simpl. rewrite Hvec, (make_Done key Hk). reflexivity.
  - split_and!; simpl.
    + exact Hvec.
    + intros obj' g. destruct (decide (obj' = obj)) as [->|Hne].
      * rewrite lookup_insert_eq. intros [= <-]. by rewrite (Hnone obj Hfree).
      * rewrite lookup_insert_ne by done. apply Hobjs.
    + intros obj'. destruct (decide (obj' = obj)) as [->|Hne].
      * by rewrite lookup_insert_eq.
      * rewrite lookup_insert_ne by done. apply Hnone.
  - intros obj'. simpl. destruct (decide (obj' = obj)) as [->|Hne].
    + rewrite lookup_insert_eq. split; eauto.
    + rewrite lookup_insert_ne by done. split; [eauto | by intros [?|?]].
Qed.

(** Calls on constructed objects, in any order. *)
Lemma run_invokes key key_var (schedule : list nat) m events :
  length key = 256%nat → consistent key key_var m events →
  Forall (λ obj, is_Some (generators m !! obj)) schedule →
  ∃ m' events',
    run (invoke <$> schedule) m = Done (m', events')
    ∧ consistent key key_var m' (events ++ events')
    ∧ fst <$> events' = schedule
    ∧ ∀ obj, is_Some (generators m' !! obj) ↔ is_Some (generators m !! obj).
Proof.
  intros Hk. revert m events.
  induction schedule as [|obj schedule IH]; intros m events Hcons Hall.
  - exists m, []. rewrite app_nil_r. done.
  - apply Forall_cons in Hall as [[g Hg] Hall].
    destruct (execute_invoke key key_var m events obj g Hk Hcons Hg)
      as (m1 & b & Hex & Hcons1 & Hdom1).
    destruct (IH m1 (events ++ [(obj, b)]) Hcons1) as (m2 & ev2 & Hrun & Hcons2 & Hfst & Hdom2).
    { eapply Forall_impl; [exact Hall|]. intros o Ho. by apply Hdom1. }
    exists m2, ((obj, b) :: ev2). split_and!.
    + rewrite fmap_cons. cbn [run]. rewrite Hex. simpl. rewrite Hrun. reflexivity.
    + by rewrite <- app_assoc in Hcons2.
    + by rewrite fmap_cons, Hfst.
    + intros o. by rewrite Hdom2, Hdom1.
Qed.

End Objects.

(** * The claims *)

Section Claims.
Import keystream_generator.
Implicit Types (g : keystream_generator.t) (key data out : list Z).

(** ** xor mode *)

(** While the first file is not the longer one, the xor mode writes one byte
    per byte of the first file, the XOR of the bytes at the same position. *)
Lemma xor_mode_first_not_longer (file_1 file_2 : list Z) :
  (length file_1 ≤ length file_2)%nat →
  ∃ out, xor_mode file_1 file_2 = Done out
         ∧ length out = (length file_1 `min` length file_2)%nat
         ∧ ∀ i a b, file_1 !! i = Some a → file_2 !! i = Some b →
                    out !! i = Some (Z.lxor a b).
Proof.
  intros Hlen. exists (zip_with Z.lxor file_1 file_2). split_and!.
  - by apply transform_istream_Done.
  - by rewrite length_zip_with.
  - intros i a b Ha Hb. by rewrite lookup_zip_with, Ha, Hb.
Qed.

(** With a longer first file the loop outruns the second file. *)
Lemma xor_mode_first_longer (file_1 file_2 : list Z) :
  (length file_2 < length file_1)%nat → xor_mode file_1 file_2 = Undefined.
Proof. apply transform_istream_Undefined. Qed.

(** C1, at the failing input: with a first file of two bytes and a second
    file of one byte the xor mode does not stop after one byte; its second
    round reads the second file's iterator at end of stream, which has no
    defined result.  With the files exchanged the output is the single byte
    1 XOR 3. *)
Theorem xor_mode_second_file_shorter :
  xor_mode [1; 2] [3] = Undefined ∧ xor_mode [3] [1; 2] = Done [2].
Proof. split; reflexivity. Qed.

(** ** The generator *)

(** C2: for a key of 256 bytes, the constructor returns a generator whose
    first [n] calls return, and so does the next call; outputs and states of
    all of them are those of the five-step algorithm run from its initial
    state, and the index [h] of call number [n + 1], which the algorithm
    leaves in its step counter, is [(n + 1) mod 256]. *)
Theorem call_is_five_step_algorithm key (n : nat) :
  length key = 256%nat →
  ∃ g0 out g b g',
    make key = Done g0
    ∧ generate_n_state n g0 = Done (out, g)
    ∧ call g = Done (b, g')
    ∧ spec_run n (spec_initial key) = (out, abstraction g)
    ∧ spec_step (abstraction g) = (b, abstraction g')
    ∧ step_counter (abstraction g') = (Z.of_nat n + 1) mod 256.
Proof.
  intros Hk. pose proof (make_Done key Hk) as Hm.
  set (g0 := {| m_key := key; m_i := 0; m_q := 0 |}) in Hm.
  assert (valid g0) as Hg0 by exact Hk.
  destruct (generate_n_state_total n g0 Hg0) as (out & g & Hr & Hg).
  destruct (call_total g Hg) as (b & g' & Hc & _).
  exists g0, out, g, b, g'. split_and!; try done.
  - by apply (generate_n_state_refines n g0).
  - by apply call_refines_spec_step.
  - simpl. rewrite (call_m_i _ _ _ Hg Hc), size_wrap_mod_256.
    rewrite <- Zplus_mod_idemp_l, (generate_n_state_m_i _ _ _ _ Hg0 Hr).
    rewrite Zplus_mod_idemp_l. reflexivity.
Qed.

Lemma call_is_five_step_algorithm_witness :
  ∃ g0 out g b g',
    make identity_key = Done g0
    ∧ generate_n_state 3 g0 = Done (out, g)
    ∧ call g = Done (b, g')
    ∧ spec_run 3 (spec_initial identity_key) = (out, abstraction g)
    ∧ spec_step (abstraction g) = (b, abstraction g')
    ∧ step_counter (abstraction g') = (Z.of_nat 3 + 1) mod 256.
Proof. exact (call_is_five_step_algorithm identity_key 3 eq_refl). Defined.

(** C5: for a key of 256 bytes and any number of calls, the calls return and
    the working key they leave is a permutation of the key. *)
Theorem working_key_Permutation key (n : nat) :
  length key = 256%nat →
  ∃ g0 out g,
    make key = Done g0
    ∧ generate_n_state n g0 = Done (out, g)
    ∧ m_key g ≡ₚ key.
Proof.
  intros Hk. pose proof (make_Done key Hk) as Hm.
  set (g0 := {| m_key := key; m_i := 0; m_q := 0 |}) in Hm.
  assert (valid g0) as Hg0 by exact Hk.
  destruct (generate_n_state_total n g0 Hg0) as (out & g & Hr & _).
  exists g0, out, g. split_and!; try done.
  by apply (generate_n_state_Permutation n g0 out g).
Qed.

Lemma working_key_Permutation_witness :
  ∃ g0 out g,
    make identity_key = Done g0
    ∧ generate_n_state 5 g0 = Done (out, g)
    ∧ m_key g ≡ₚ identity_key.
Proof. exact (working_key_Permutation identity_key 5 eq_refl). Defined.

(** C6: the constructor throws [std::invalid_argument] for every key whose
    size is not 256; for a key of 256 bytes it returns a generator on which
    any number of calls return, one byte each; the key of 256 zero bytes is
    among those accepted. *)
Theorem constructor_is_the_only_failure key :
  (length key ≠ 256%nat → make key = Throw invalid_argument)
  ∧ (length key = 256%nat →
     ∃ g0, make key = Done g0
           ∧ ∀ n : nat, ∃ out g, generate_n_state n g0 = Done (out, g)
                                ∧ length out = n)
  ∧ make zero_key = Done {| m_key := zero_key; m_i := 0; m_q := 0 |}.
Proof.
  split_and!.
  - apply make_Throw.
  - intros Hk. eexists. split; [by apply make_Done|]. intros n.
    destruct (generate_n_state_total n {| m_key := key; m_i := 0; m_q := 0 |})
      as (out & g & Hr & _); [exact Hk|].
    exists out, g. split; [done|]. by eapply generate_n_state_length.
  - reflexivity.
Qed.

Lemma constructor_is_the_only_failure_witness :
  make [1; 2; 3] = Throw invalid_argument
  ∧ ∃ g0, make zero_key = Done g0
          ∧ ∀ n : nat, ∃ out g, generate_n_state n g0 = Done (out, g)
                               ∧ length out = n.
Proof.
  split.
  - apply (constructor_is_the_only_failure [1; 2; 3]). discriminate.
  - apply (constructor_is_the_only_failure zero_key). reflexivity.
Defined.

(** C7: for a key of 256 bytes and any [n], the generator produces [n]
    bytes, and each of them is a value that occurs in the key. *)
Theorem keystream_bytes_occur_in_key key (n : nat) :
  length key = 256%nat →
  ∃ g0 out,
    make key = Done g0
    ∧ generate_n n g0 = Done out
    ∧ length out = n
    ∧ ∀ b, b ∈ out → b ∈ key.
Proof.
  intros Hk. pose proof (make_Done key Hk) as Hm.
  set (g0 := {| m_key := key; m_i := 0; m_q := 0 |}) in Hm.
  assert (valid g0) as Hg0 by exact Hk.
  destruct (generate_n_state_total n g0 Hg0) as (out & g & Hr & _).
  exists g0, out. split_and!; try done.
  - by eapply generate_n_of_state.
  - by eapply generate_n_state_length.
  - intros b Hb. by apply (generate_n_state_elem_of n g0 out g b).
Qed.

Lemma keystream_bytes_occur_in_key_witness :
  ∃ g0 out,
    make zero_key = Done g0
    ∧ generate_n 4 g0 = Done out
    ∧ length out = 4%nat
    ∧ ∀ b, b ∈ out → b ∈ zero_key.
Proof. exact (keystream_bytes_occur_in_key zero_key 4 eq_refl). Defined.

(** C8: with the identity key the first call of a fresh generator returns 2:
    it uses index 1, sets the accumulator to 1, swaps position 1 with itself
    and so leaves the key as it was, and reads position 2. *)
Theorem identity_key_first_byte :
  ∃ g g',
    make identity_key = Done g
    ∧ call g = Done (2, g')
    ∧ m_i g' = 1 ∧ m_q g' = 1 ∧ m_key g' = identity_key.
Proof.
  exists {| m_key := identity_key; m_i := 0; m_q := 0 |},
         {| m_key := identity_key; m_i := 1; m_q := 1 |}.
  split_and!; vm_compute; reflexivity.
Qed.



(** ** crypt mode and keystream mode *)

(** Once the length argument is converted, the keystream mode is a run of
    that many calls on a fresh generator. *)
Lemma keystream_mode_Done key (arg : string) (n : Z) :
  length key = 256%nat → stoul arg = Done n →
  ∃ out g,
    generate_n_state (Z.to_nat n) {| m_key := key; m_i := 0; m_q := 0 |}
    = Done (out, g)
    ∧ keystream_mode key arg = Done out.
Proof.
  intros Hk Harg.
  destruct (generate_n_state_total (Z.to_nat n)
              {| m_key := key; m_i := 0; m_q := 0 |} Hk) as (out & g & Hr & _).
  exists out, g. split; [done|].
  unfold keystream_mode. rewrite Harg, bind_Done, (make_Done key Hk), bind_Done.
  by eapply generate_n_of_state.
Qed.

(** C3, as stated, fails: the argument "-1" is not a non-negative integer,
    yet the keystream mode does not fail on it; [std::stoul] converts it to
    [ULONG_MAX] and the mode writes that many bytes. *)
Lemma keystream_mode_accepts_minus_one :
  decimal_numeral "-1" = None
  ∧ keystream_mode zero_key "-1" ≠ Throw invalid_argument
  ∧ ∃ out, keystream_mode zero_key "-1" = Done out
           ∧ Z.of_nat (length out) = ULONG_MAX.
Proof.
  assert (stoul "-1" = Done ULONG_MAX) as Harg by (vm_compute; reflexivity).
  destruct (keystream_mode_Done zero_key "-1" ULONG_MAX eq_refl Harg)
    as (out & g & Hr & Hm).
  split_and!.
  - reflexivity.
  - rewrite Hm. discriminate.
  - exists out. split; [exact Hm|].
    rewrite (generate_n_state_length _ _ _ _ Hr). apply Z2Nat.id.
    unfold ULONG_MAX. lia.
Qed.

(** C3, amended: given a key of 256 bytes, the keystream mode throws
    [std::invalid_argument] when the length argument has no decimal digit
    after its leading white space and at most one sign; when the argument
    is a non-empty string of decimal digits denoting [n], it writes exactly
    [n] bytes, the first [n] outputs of the five-step algorithm run from its
    initial state, provided [n] is at most [ULONG_MAX], and throws
    [std::out_of_range] otherwise. *)
Theorem keystream_mode_length_argument key (arg : string) :
  length key = 256%nat →
  (no_conversion arg → keystream_mode key arg = Throw invalid_argument)
  ∧ (∀ n, decimal_numeral arg = Some n → n ≤ ULONG_MAX →
       ∃ out, keystream_mode key arg = Done out
              ∧ Z.of_nat (length out) = n
              ∧ out = (spec_run (Z.to_nat n) (spec_initial key)).1)
  ∧ (∀ n, decimal_numeral arg = Some n → ULONG_MAX < n →
       keystream_mode key arg = Throw out_of_range).
Proof.
  intros Hk. split_and!.
  - intros Hno. unfold keystream_mode.
    by rewrite (stoul_no_conversion arg Hno).
  - intros n Hnum Hle.
    assert (0 ≤ n) as Hn0 by (by eapply decimal_numeral_nonneg).
    assert (stoul arg = Done n) as Harg.
    { rewrite (stoul_numeral arg n Hnum). case_decide; [lia | done]. }
    destruct (keystream_mode_Done key arg n Hk Harg) as (out & g & Hr & Hm).
    exists out. split_and!; [done| |].
    + rewrite (generate_n_state_length _ _ _ _ Hr). by apply Z2Nat.id.
    + change (spec_initial key)
        with (abstraction {| m_key := key; m_i := 0; m_q := 0 |}).
      by rewrite (generate_n_state_refines (Z.to_nat n)
                    {| m_key := key; m_i := 0; m_q := 0 |} out g Hk Hr).
  - intros n Hnum Hgt. unfold keystream_mode.
    rewrite (stoul_numeral arg n Hnum). case_decide; [done | lia].
Qed.

Lemma keystream_mode_length_argument_witness :
  keystream_mode identity_key "x" = Throw invalid_argument
  ∧ (∃ out, keystream_mode identity_key "5" = Done out
            ∧ Z.of_nat (length out) = 5
            ∧ out = (spec_run (Z.to_nat 5) (spec_initial identity_key)).1)
  ∧ keystream_mode identity_key "18446744073709551616" = Throw out_of_range.
Proof.
  split_and!.
  - apply (keystream_mode_length_argument identity_key "x" eq_refl).
    apply no_conversion_other; [reflexivity | discriminate | discriminate
                               | reflexivity].
  - destruct (keystream_mode_length_argument identity_key "5" eq_refl)
      as (_ & Hnum & _).
    apply (Hnum 5); [reflexivity | discriminate].
  - destruct (keystream_mode_length_argument identity_key
                "18446744073709551616" eq_refl) as (_ & _ & Hbig).
    apply (Hbig (2 ^ 64)); reflexivity.
Defined.

(** C4: for a key of 256 bytes and any input, the crypt mode returns, and
    the crypt mode run on its output with the same key returns the input. *)
Theorem crypt_mode_self_inverse key data :
  length key = 256%nat →
  ∃ out, crypt_mode key data = Done out ∧ crypt_mode key out = Done data.
Proof.
  intros Hk.
  destruct (crypt_mode_keystream key data Hk) as (g & ks & Hm & Hks & Hlen & Hc).
  exists (zip_with Z.lxor data ks). split; [exact Hc|].
  destruct (crypt_mode_keystream key (zip_with Z.lxor data ks) Hk)
    as (g2 & ks2 & Hm2 & Hks2 & _ & ->).
  assert (g2 = g) as -> by congruence.
  rewrite length_zip_with, Hlen, Nat.min_id, Hks in Hks2.
  injection Hks2 as <-. by rewrite zip_with_lxor_twice by lia.
Qed.

Lemma crypt_mode_self_inverse_witness :
  ∃ out, crypt_mode identity_key [104; 105; 33] = Done out
         ∧ crypt_mode identity_key out = Done [104; 105; 33].
Proof. exact (crypt_mode_self_inverse identity_key [104; 105; 33] eq_refl). Defined.

(** C10: for a key of 256 bytes, an input, and a length argument that
    [std::stoul] converts to the input's length, the keystream mode writes as
    many bytes as the input has and the crypt mode writes the input XORed
    position by position with exactly those bytes. *)
Theorem crypt_mode_uses_keystream_mode key data (arg : string) :
  length key = 256%nat →
  stoul arg = Done (Z.of_nat (length data)) →
  ∃ ks, keystream_mode key arg = Done ks
        ∧ length ks = length data
        ∧ crypt_mode key data = Done (zip_with Z.lxor data ks).
Proof.
  intros Hk Harg.
  destruct (crypt_mode_keystream key data Hk) as (g & ks & Hm & Hks & Hlen & Hc).
  exists ks. split_and!; try done.
  unfold keystream_mode. rewrite Harg, bind_Done, Hm, bind_Done.
  by rewrite Nat2Z.id.
Qed.

Lemma crypt_mode_uses_keystream_mode_witness :
  ∃ ks, keystream_mode identity_key "3" = Done ks
        ∧ length ks = length [104; 105; 33]
        ∧ crypt_mode identity_key [104; 105; 33]
          = Done (zip_with Z.lxor [104; 105; 33] ks).
Proof.
  exact (crypt_mode_uses_keystream_mode identity_key [104; 105; 33] "3"
           eq_refl eq_refl).
Defined.

End Claims.

(** * Further properties of the program *)

Section MoreRuns.
Import keystream_generator.
Implicit Types (g : keystream_generator.t) (key data ks out : list Z).

Lemma fresh_valid key :
  length key = 256%nat → valid {| m_key := key; m_i := 0; m_q := 0 |}.
Proof. intros Hk. exact Hk. Qed.

Lemma generate_n_prefix n m g ks :
  valid g → (n ≤ m)%nat → generate_n m g = Done ks →
  generate_n n g = Done (take n ks).
Proof.
  intros Hg Hnm (g' & Hr)%generate_n_state_of.
  destruct (generate_n_state_prefix n m g ks g' Hg Hnm Hr) as (g'' & Hn).
  by eapply generate_n_of_state.
Qed.

Lemma generate_n_total n g :
  valid g → ∃ ks, generate_n n g = Done ks ∧ length ks = n.
Proof.
  intros Hg. destruct (generate_n_state_total n g Hg) as (ks & g' & Hr & _).
  exists ks. split; [by eapply generate_n_of_state|].
  by eapply generate_n_state_length.
Qed.

(** The position is the number of calls made, as [std::size_t] counts. *)
Lemma generate_n_state_pos n g out g' :
  valid g → 0 ≤ m_i g < size_modulus →
  generate_n_state n g = Done (out, g') →
  m_i g' = (m_i g + Z.of_nat n) mod size_modulus.
Proof.
  revert g out. induction n as [|n IH]; intros g out Hg Hi.
  - intros [= _ <-]. rewrite Z.add_0_r, Z.mod_small; done.
  - intros (b & g1 & out1 & Hc & Hr & _)%generate_n_state_inv.
    pose proof (call_m_i _ _ _ Hg Hc) as Hi1.
    rewrite (IH g1 out1 (call_valid _ _ _ Hg Hc)); [| |done].
    + rewrite Hi1, Zplus_mod_idemp_l. f_equal. lia.
    + rewrite Hi1. apply Z.mod_pos_bound. unfold size_modulus. lia.
Qed.

(** The accumulator and the position stay inside their types. *)
Lemma call_ranges g b g' :
  valid g → call g = Done (b, g') →
  0 ≤ m_q g' < 256 ∧ 0 ≤ m_i g' < size_modulus.
Proof.
  intros Hg. rewrite (call_Done g Hg). intros [= _ <-]. simpl.
  split; apply Z.mod_pos_bound; unfold size_modulus; lia.
Qed.

Lemma zip_with_lxor_const data ks (c : Z) :
  length ks = length data → (∀ k, k ∈ ks → k = c) →
  zip_with Z.lxor data ks = (λ b, Z.lxor b c) <$> data.
Proof.
  revert ks. induction data as [|x data IH]; intros [|k ks] Hlen Hall;
    simpl in *; try done.
  rewrite (Hall k) by apply list_elem_of_here.
  rewrite IH; [done | lia |].
  intros k' Hk'. apply Hall. by apply list_elem_of_further.
Qed.

Lemma zip_with_lxor_pad a b ks :
  (length a ≤ length b)%nat → (length b ≤ length ks)%nat →
  zip_with Z.lxor (zip_with Z.lxor a (take (length a) ks)) (zip_with Z.lxor b ks)
  = zip_with Z.lxor a b.
Proof.
  revert b ks. induction a as [|x a IH]; intros [|y b] [|k ks] Hab Hbk;
    simpl in *; try done; try lia.
  rewrite IH by lia. f_equal.
  rewrite Z.lxor_assoc, (Z.lxor_comm y k), <- (Z.lxor_assoc k k y).
  by rewrite Z.lxor_nilpotent, Z.lxor_0_l.
Qed.

Lemma zip_with_lxor_cancel data ks :
  length ks = length data →
  zip_with Z.lxor data (zip_with Z.lxor data ks) = ks.
Proof.
  revert ks. induction data as [|x data IH]; intros [|k ks] Hlen;
    simpl in *; try done.
  rewrite IH by lia. f_equal.
  by rewrite <- Z.lxor_assoc, Z.lxor_nilpotent, Z.lxor_0_l.
Qed.

End MoreRuns.

Section MoreModes.
Import keystream_generator.
Implicit Types (g : keystream_generator.t) (key data ks out : list Z).

Lemma generate_n_state_m_q n g out g' :
  valid g → 0 ≤ m_q g < 256 → generate_n_state n g = Done (out, g') →
  0 ≤ m_q g' < 256.
Proof.
  revert g out. induction n as [|n IH]; intros g out Hg Hq.
  - by intros [= _ <-].
  - intros (b & g1 & out1 & Hc & Hr & _)%generate_n_state_inv.
    eapply (IH g1 out1); [by eapply call_valid | | done].
    by eapply call_ranges.
Qed.

(** X1: on a key of 256 bytes, however many calls are made, [pos()] is the
    number of calls as [std::size_t] counts it, the accumulator is a byte,
    and the working key and every byte returned hold byte values only. *)
Theorem generator_state_stays_in_range key (n : nat) :
  length key = 256%nat → Forall (λ b, 0 ≤ b < 256) key →
  ∃ g0 out g,
    make key = Done g0
    ∧ generate_n_state n g0 = Done (out, g)
    ∧ pos g = Z.of_nat n mod size_modulus
    ∧ 0 ≤ m_q g < 256
    ∧ Forall (λ b, 0 ≤ b < 256) (keystream_generator.key g)
    ∧ Forall (λ b, 0 ≤ b < 256) out.
Proof.
  intros Hk Hbytes. pose proof (make_Done key Hk) as Hm.
  set (g0 := {| m_key := key; m_i := 0; m_q := 0 |}) in *.
  pose proof (fresh_valid key Hk) as Hg0. fold g0 in Hg0.
  destruct (generate_n_state_total n g0 Hg0) as (out & g & Hr & _).
  assert (0 ≤ m_q g < 256) as Hq
    by (eapply (generate_n_state_m_q n g0); [done | simpl; lia | done]).
  exists g0, out, g. split_and!; try done; try lia.
  - unfold pos. rewrite (generate_n_state_pos n g0 out g Hg0); [done| |done].
    simpl. unfold size_modulus. lia.
  - change (Forall (λ b, 0 ≤ b < 256) (m_key g)).
    by rewrite (generate_n_state_Permutation n g0 out g Hg0 Hr).
  - by eapply (generate_n_state_bytes n g0).
Qed.

Lemma generator_state_stays_in_range_witness :
  ∃ g0 out g,
    make identity_key = Done g0
    ∧ generate_n_state 7 g0 = Done (out, g)
    ∧ pos g = Z.of_nat 7 mod size_modulus
    ∧ 0 ≤ m_q g < 256
    ∧ Forall (λ b, 0 ≤ b < 256) (keystream_generator.key g)
    ∧ Forall (λ b, 0 ≤ b < 256) out.
Proof.
  apply (generator_state_stays_in_range identity_key 7 eq_refl).
  apply Forall_fmap, Forall_forall. intros x Hx%elem_of_seq. simpl. lia.
Defined.

Lemma crypt_mode_uniform_key key (c : Z) data :
  length key = 256%nat → (∀ k, k ∈ key → k = c) →
  crypt_mode key data = Done ((λ b, Z.lxor b c) <$> data).
Proof.
  intros Hk Hall.
  destruct (crypt_mode_keystream key data Hk) as (g & ks & Hm & Hks & Hlen & ->).
  f_equal. apply zip_with_lxor_const; [done|]. intros k Hin.
  rewrite (make_Done key Hk) in Hm. injection Hm as <-.
  apply generate_n_state_of in Hks as (g' & Hr).
  apply Hall.
  exact (generate_n_state_elem_of _ _ _ _ k (fresh_valid key Hk) Hr Hin).
Qed.

(** X2: a key that repeats one byte [c] 256 times makes the crypt mode XOR
    every input byte with [c]; with the key of 256 zero bytes the crypt mode
    writes its input unchanged. *)
Theorem crypt_mode_constant_key (c : Z) data :
  crypt_mode (replicate 256 c) data = Done ((λ b, Z.lxor b c) <$> data)
  ∧ crypt_mode zero_key data = Done data.
Proof.
  assert (∀ c', crypt_mode (replicate 256 c') data
                = Done ((λ b, Z.lxor b c') <$> data)) as Hconst.
  { intros c'. apply crypt_mode_uniform_key.
    - apply length_replicate.
    - intros k. apply elem_of_replicate_inv. }
  split; [apply Hconst|].
  unfold zero_key. rewrite Hconst. f_equal.
  rewrite <- (list_fmap_id data) at 2. apply list_fmap_ext.
  intros _ b _. apply Z.lxor_0_r.
Qed.

(** X3: when two length arguments convert to [n] and [m] with [n ≤ m], the
    keystream mode's output for the first is the first [n] bytes of its
    output for the second. *)
Theorem keystream_mode_prefix key (arg_n arg_m : string) (n m : Z) :
  length key = 256%nat →
  stoul arg_n = Done n → stoul arg_m = Done m → 0 ≤ n ≤ m →
  ∃ out_n out_m,
    keystream_mode key arg_n = Done out_n
    ∧ keystream_mode key arg_m = Done out_m
    ∧ out_n = take (Z.to_nat n) out_m.
Proof.
  intros Hk Hn Hm Hnm.
  destruct (keystream_mode_Done key arg_m m Hk Hm) as (out_m & g & Hr & Hkm).
  exists (take (Z.to_nat n) out_m), out_m. split_and!; try done.
  unfold keystream_mode. rewrite Hn, bind_Done, (make_Done key Hk), bind_Done.
  eapply (generate_n_prefix _ (Z.to_nat m)); [by apply fresh_valid | lia |].
  by eapply generate_n_of_state.
Qed.

Lemma keystream_mode_prefix_witness :
  ∃ out_n out_m,
    keystream_mode identity_key "2" = Done out_n
    ∧ keystream_mode identity_key "5" = Done out_m
    ∧ out_n = take (Z.to_nat 2) out_m.
Proof.
  apply (keystream_mode_prefix identity_key "2" "5" 2 5 eq_refl eq_refl eq_refl).
  split; discriminate.
Defined.

(** X4: the crypt mode writes as many bytes as it reads, and what it writes
    for the beginning of an input does not depend on what follows. *)
Theorem crypt_mode_streams key (data_1 data_2 : list Z) :
  length key = 256%nat →
  ∃ out_1 out,
    crypt_mode key data_1 = Done out_1
    ∧ crypt_mode key (data_1 ++ data_2) = Done out
    ∧ length out = (length data_1 + length data_2)%nat
    ∧ out_1 = take (length data_1) out.
Proof.
  intros Hk.
  destruct (crypt_mode_keystream key (data_1 ++ data_2) Hk)
    as (g & ks & Hm & Hks & Hlen & Hc).
  destruct (crypt_mode_keystream key data_1 Hk)
    as (g1 & ks1 & Hm1 & Hks1 & Hlen1 & Hc1).
  assert (g1 = g) as -> by congruence.
  rewrite length_app in *.
  rewrite make_Done in Hm by done. injection Hm as <-.
  rewrite (generate_n_prefix (length data_1) (length data_1 + length data_2)
             _ ks (fresh_valid key Hk) (Nat.le_add_r _ _) Hks) in Hks1.
  injection Hks1 as <-.
  eexists _, _. split_and!; [exact Hc1 | exact Hc | |].
  - rewrite length_zip_with, length_app. lia.
  - rewrite zip_with_take, take_app_length. reflexivity.
Qed.

Lemma crypt_mode_streams_witness :
  ∃ out_1 out,
    crypt_mode identity_key [1; 2] = Done out_1
    ∧ crypt_mode identity_key ([1; 2] ++ [3]) = Done out
    ∧ length out = (length [1; 2] + length [3])%nat
    ∧ out_1 = take (length [1; 2]) out.
Proof. exact (crypt_mode_streams identity_key [1; 2] [3] eq_refl). Defined.

End MoreModes.

Section Combined.
Import keystream_generator.
Implicit Types (g : keystream_generator.t) (key data ks out : list Z).

(** X5: the xor mode, given two outputs of the crypt mode under one key, the
    one of the shorter input first, writes the XOR of the two inputs: the
    keystream cancels. *)
Theorem xor_mode_of_two_crypts key (data_a data_b : list Z) :
  length key = 256%nat → (length data_a ≤ length data_b)%nat →
  ∃ out_a out_b,
    crypt_mode key data_a = Done out_a
    ∧ crypt_mode key data_b = Done out_b
    ∧ xor_mode out_a out_b = Done (zip_with Z.lxor data_a data_b).
Proof.
  intros Hk Hab.
  destruct (crypt_mode_keystream key data_a Hk) as (ga & ka & Hma & Hka & Hla & Ha).
  destruct (crypt_mode_keystream key data_b Hk) as (gb & kb & Hmb & Hkb & Hlb & Hb).
  assert (ga = gb) as -> by congruence.
  rewrite (make_Done key Hk) in Hmb. injection Hmb as <-.
  rewrite (generate_n_prefix (length data_a) (length data_b) _ kb
             (fresh_valid key Hk) Hab Hkb) in Hka.
  injection Hka as <-.
  eexists _, _. split_and!; [exact Ha | exact Hb |].
  unfold xor_mode. rewrite transform_istream_Done.
  - f_equal. apply zip_with_lxor_pad; lia.
  - rewrite !length_zip_with, length_take. lia.
Qed.

Lemma xor_mode_of_two_crypts_witness :
  ∃ out_a out_b,
    crypt_mode identity_key [10; 20] = Done out_a
    ∧ crypt_mode identity_key [30; 40; 50] = Done out_b
    ∧ xor_mode out_a out_b = Done (zip_with Z.lxor [10; 20] [30; 40; 50]).
Proof.
  apply (xor_mode_of_two_crypts identity_key [10; 20] [30; 40; 50] eq_refl).
  simpl. lia.
Defined.

(** X6: the xor mode, given an input and the crypt mode's output for it,
    writes the keystream itself: the bytes the generator produces for that
    key. *)
Theorem xor_mode_recovers_keystream key data :
  length key = 256%nat →
  ∃ g0 ks out,
    make key = Done g0
    ∧ generate_n (length data) g0 = Done ks
    ∧ crypt_mode key data = Done out
    ∧ xor_mode data out = Done ks.
Proof.
  intros Hk.
  destruct (crypt_mode_keystream key data Hk) as (g & ks & Hm & Hks & Hlen & Hc).
  exists g, ks, (zip_with Z.lxor data ks). split_and!; try done.
  unfold xor_mode. rewrite transform_istream_Done.
  - f_equal. by apply zip_with_lxor_cancel.
  - rewrite length_zip_with. lia.
Qed.

Lemma xor_mode_recovers_keystream_witness :
  ∃ g0 ks out,
    make identity_key = Done g0
    ∧ generate_n (length [7; 8; 9]) g0 = Done ks
    ∧ crypt_mode identity_key [7; 8; 9] = Done out
    ∧ xor_mode [7; 8; 9] out = Done ks.
Proof. exact (xor_mode_recovers_keystream identity_key [7; 8; 9] eq_refl). Defined.

(** X7: the xor mode in closed form: when the first file is not longer than
    the second it writes one byte per byte of the first file, the XOR of the
    two bytes at that position; when the first file is longer, its reads of
    the second file run past the end and nothing is defined. *)
Theorem xor_mode_closed_form (file_1 file_2 : list Z) :
  xor_mode file_1 file_2
  = if decide (length file_1 ≤ length file_2)%nat
    then Done (zip_with Z.lxor file_1 file_2)
    else Undefined.
Proof.
  unfold xor_mode. case_decide.
  - by apply transform_istream_Done.
  - apply transform_istream_Undefined. lia.
Qed.

(** X8: on two files of one length the xor mode is symmetric, and applying
    it to the first file and its own output gives back the second file. *)
Theorem xor_mode_same_length (file_1 file_2 : list Z) :
  length file_1 = length file_2 →
  ∃ out,
    xor_mode file_1 file_2 = Done out
    ∧ xor_mode file_2 file_1 = Done out
    ∧ xor_mode file_1 out = Done file_2.
Proof.
  intros Hlen. exists (zip_with Z.lxor file_1 file_2). unfold xor_mode.
  rewrite !transform_istream_Done by (rewrite ?length_zip_with; lia).
  split_and!; f_equal.
  - revert file_1 Hlen. induction file_2 as [|y l IH]; intros [|x k] Hlen;
      simpl in *; try done.
    rewrite Z.lxor_comm. f_equal. apply IH. lia.
  - apply zip_with_lxor_cancel. lia.
Qed.

Lemma xor_mode_same_length_witness :
  ∃ out,
    xor_mode [1; 2; 3] [4; 5; 6] = Done out
    ∧ xor_mode [4; 5; 6] [1; 2; 3] = Done out
    ∧ xor_mode [1; 2; 3] out = Done [4; 5; 6].
Proof. exact (xor_mode_same_length [1; 2; 3] [4; 5; 6] eq_refl). Defined.

End Combined.

Section Iterator.
Import keystream_generator.
Implicit Types (g : keystream_generator.t) (it : keystream_iterator.t)
               (key ks out : list Z).

(** An iterator after [k] increments: its generator has made [k] more calls,
    and it holds the byte the last of them returned. *)
Lemma pre_incr_n_run (k : nat) it :
  valid (keystream_iterator.m_gen it) →
  ∃ out g',
    generate_n_state k (keystream_iterator.m_gen it) = Done (out, g')
    ∧ keystream_iterator.pre_incr_n k it
      = Done {| keystream_iterator.m_gen := g';
                keystream_iterator.m_current :=
                  default (keystream_iterator.m_current it) (last out) |}.
Proof.
  revert it. induction k as [|k IH]; intros [g c] Hg; simpl in Hg.
  - exists [], g. done.
  - destruct (call_total g Hg) as (c1 & g1 & Hc & Hg1).
    destruct (IH {| keystream_iterator.m_gen := g1;
                    keystream_iterator.m_current := c1 |} Hg1)
      as (out & g' & Hr & Hit). simpl in Hr, Hit.
    exists (c1 :: out), g'. split.
    + by eapply generate_n_state_S.
    + cbn. unfold keystream_iterator.pre_incr, keystream_iterator.advance.
      cbn. rewrite Hc. cbn. rewrite Hit. do 2 f_equal.
      rewrite last_cons. by destruct (last out).
Qed.

Lemma iterator_make_Done key :
  length key = 256%nat →
  ∃ c g1,
    call {| m_key := key; m_i := 0; m_q := 0 |} = Done (c, g1)
    ∧ valid g1
    ∧ keystream_iterator.make key
      = Done {| keystream_iterator.m_gen := g1;
                keystream_iterator.m_current := c |}.
Proof.
  intros Hk.
  destruct (call_total _ (fresh_valid key Hk)) as (c & g1 & Hc & Hg1).
  exists c, g1. split_and!; try done.
  unfold keystream_iterator.make, keystream_iterator.advance.
  rewrite (make_Done key Hk). cbn. by rewrite Hc.
Qed.

(** An iterator built on a key and incremented [k] times, together with the
    run of [k + 1] calls on a fresh generator that it mirrors. *)
Lemma iterator_after_increments key (k : nat) :
  length key = 256%nat →
  ∃ it0 it ks g,
    keystream_iterator.make key = Done it0
    ∧ keystream_iterator.pre_incr_n k it0 = Done it
    ∧ generate_n_state (S k) {| m_key := key; m_i := 0; m_q := 0 |}
      = Done (ks, g)
    ∧ keystream_iterator.m_gen it = g
    ∧ ks !! k = Some (keystream_iterator.m_current it).
Proof.
  intros Hk.
  destruct (iterator_make_Done key Hk) as (c & g1 & Hc & Hg1 & Hmk).
  destruct (pre_incr_n_run k {| keystream_iterator.m_gen := g1;
                                keystream_iterator.m_current := c |} Hg1)
    as (out & g & Hr & Hit). simpl in Hr, Hit.
  eexists _, _, (c :: out), g. split_and!; [exact Hmk | exact Hit | | done |].
  - by eapply generate_n_state_S.
  - simpl keystream_iterator.m_current.
    pose proof (generate_n_state_length _ _ _ _ Hr) as Hlen.
    replace k with (pred (length (c :: out))) by (simpl; lia).
    rewrite <- last_lookup, last_cons. by destruct (last out).
Qed.

(** X9: an iterator constructed on a key of 256 bytes and then incremented
    [k] times holds byte number [k + 1] of the keystream, and the position
    of its generator is [k + 1] as [std::size_t] counts it. *)
Theorem keystream_iterator_holds_keystream_byte key (k : nat) :
  length key = 256%nat →
  ∃ it0 it g0 ks b,
    keystream_iterator.make key = Done it0
    ∧ keystream_iterator.pre_incr_n k it0 = Done it
    ∧ make key = Done g0
    ∧ generate_n (S k) g0 = Done ks
    ∧ keystream_iterator.star it = Done b
    ∧ ks !! k = Some b
    ∧ pos (keystream_iterator.m_gen it) = (Z.of_nat k + 1) mod size_modulus.
Proof.
  intros Hk.
  destruct (iterator_after_increments key k Hk)
    as (it0 & it & ks & g & Hmk & Hit & Hr & Hg & Hb).
  exists it0, it, {| m_key := key; m_i := 0; m_q := 0 |}, ks,
    (keystream_iterator.m_current it).
  split_and!; try done.
  - by apply make_Done.
  - by eapply generate_n_of_state.
  - rewrite Hg. unfold pos.
    rewrite (generate_n_state_pos _ _ _ _ (fresh_valid key Hk)
               ltac:(simpl; unfold size_modulus; lia) Hr).
    simpl. f_equal. lia.
Qed.

Lemma keystream_iterator_holds_keystream_byte_witness :
  ∃ it0 it g0 ks b,
    keystream_iterator.make identity_key = Done it0
    ∧ keystream_iterator.pre_incr_n 3 it0 = Done it
    ∧ make identity_key = Done g0
    ∧ generate_n (S 3) g0 = Done ks
    ∧ keystream_iterator.star it = Done b
    ∧ ks !! 3%nat = Some b
    ∧ pos (keystream_iterator.m_gen it) = (Z.of_nat 3 + 1) mod size_modulus.
Proof.
  exact (keystream_iterator_holds_keystream_byte identity_key 3 eq_refl).
Defined.

(** X10: two iterators constructed on the same key of 256 bytes and
    incremented [j] and [k] times, both below the range of [std::size_t],
    compare equal with [operator==] exactly when [j = k]; [operator!=] says
    the opposite. *)
Theorem keystream_iterator_equality key (j k : nat) :
  length key = 256%nat →
  Z.of_nat j + 1 < size_modulus → Z.of_nat k + 1 < size_modulus →
  ∃ it_j it_k,
    (it0 ← keystream_iterator.make key; keystream_iterator.pre_incr_n j it0)
    = Done it_j
    ∧ (it0 ← keystream_iterator.make key; keystream_iterator.pre_incr_n k it0)
      = Done it_k
    ∧ (keystream_iterator.eqb it_j it_k = true ↔ j = k)
    ∧ (keystream_iterator.neqb it_j it_k = true ↔ j ≠ k).
Proof.
  intros Hk Hj Hk'.
  destruct (iterator_after_increments key j Hk)
    as (it0 & it_j & ksj & gj & Hmk & Hitj & Hrj & Hgj & _).
  destruct (iterator_after_increments key k Hk)
    as (it0' & it_k & ksk & gk & Hmk' & Hitk & Hrk & Hgk & _).
  assert (it0' = it0) as -> by congruence.
  assert (keystream_iterator.eqb it_j it_k = true ↔ j = k) as Heq.
  { split.
    - unfold keystream_iterator.eqb, pos.
      intros [_ Hpos%bool_decide_eq_true]%andb_true_iff.
      rewrite Hgj, Hgk in Hpos.
      rewrite (generate_n_state_pos _ _ _ _ (fresh_valid key Hk)
                 ltac:(simpl; unfold size_modulus; lia) Hrj) in Hpos.
      rewrite (generate_n_state_pos _ _ _ _ (fresh_valid key Hk)
                 ltac:(simpl; unfold size_modulus; lia) Hrk) in Hpos.
      simpl in Hpos. rewrite !Z.mod_small in Hpos by lia. lia.
    - intros ->. assert (it_k = it_j) as -> by congruence.
      unfold keystream_iterator.eqb.
      apply andb_true_iff. split; by apply bool_decide_eq_true. }
  exists it_j, it_k. split_and!.
  - rewrite Hmk. exact Hitj.
  - rewrite Hmk. exact Hitk.
  - exact Heq.
  - unfold keystream_iterator.neqb. rewrite negb_true_iff.
    rewrite <- Heq. by destruct (keystream_iterator.eqb it_j it_k).
Qed.

Lemma keystream_iterator_equality_witness :
  ∃ it_j it_k,
    (it0 ← keystream_iterator.make identity_key;
     keystream_iterator.pre_incr_n 2 it0) = Done it_j
    ∧ (it0 ← keystream_iterator.make identity_key;
       keystream_iterator.pre_incr_n 5 it0) = Done it_k
    ∧ (keystream_iterator.eqb it_j it_k = true ↔ 2%nat = 5%nat)
    ∧ (keystream_iterator.neqb it_j it_k = true ↔ 2%nat ≠ 5%nat).
Proof.
  exact (keystream_iterator_equality identity_key 2 5 eq_refl eq_refl eq_refl).
Defined.

Lemma post_read_n_run (k : nat) g c g1 :
  valid g → call g = Done (c, g1) →
  ∃ ks it,
    generate_n k g = Done ks
    ∧ keystream_iterator.post_read_n k
        {| keystream_iterator.m_gen := g1; keystream_iterator.m_current := c |}
      = Done (ks, it).
Proof.
  revert g c g1. induction k as [|k IH]; intros g c g1 Hg Hc.
  - eexists [], _. done.
  - pose proof (call_valid _ _ _ Hg Hc) as Hg1.
    destruct (call_total g1 Hg1) as (c' & g2 & Hc' & _).
    destruct (IH g1 c' g2 Hg1 Hc') as (ks & it & Hks & Hread).
    exists (c :: ks), it. split; [by eapply generate_n_S|].
    cbn. unfold keystream_iterator.post_incr, keystream_iterator.advance.
    cbn. rewrite Hc'. cbn. by rewrite Hread.
Qed.

(** X11: [k] reads of the form [*it++] from an iterator constructed on a key
    of 256 bytes return the first [k] bytes a generator constructed on that
    key produces. *)
Theorem postfix_reads_are_the_keystream key (k : nat) :
  length key = 256%nat →
  ∃ it0 out it g0,
    keystream_iterator.make key = Done it0
    ∧ keystream_iterator.post_read_n k it0 = Done (out, it)
    ∧ make key = Done g0
    ∧ generate_n k g0 = Done out.
Proof.
  intros Hk.
  destruct (iterator_make_Done key Hk) as (c & g1 & Hc & _ & Hmk).
  destruct (post_read_n_run k _ c g1 (fresh_valid key Hk) Hc)
    as (ks & it & Hks & Hread).
  eexists _, ks, it, _. split_and!; [exact Hmk | exact Hread | | exact Hks].
  by apply make_Done.
Qed.

Lemma postfix_reads_are_the_keystream_witness :
  ∃ it0 out it g0,
    keystream_iterator.make identity_key = Done it0
    ∧ keystream_iterator.post_read_n 4 it0 = Done (out, it)
    ∧ make identity_key = Done g0
    ∧ generate_n 4 g0 = Done out.
Proof. exact (postfix_reads_are_the_keystream identity_key 4 eq_refl). Defined.

End Iterator.

Section Main.
Import keystream_generator.
Implicit Types (env : environment) (argv args : list string)
               (p command name len : string) (key content out : list Z).

Lemma copy_n_istream (l : list Z) (n : nat) :
  copy_n (IStream l) n
  = if decide (n ≤ length l)%nat then Done (take n l) else Undefined.
Proof.
  revert l. induction n as [|n IH]; intros l.
  - cbn [copy_n]. case_decide; [done | lia].
  - destruct l as [|b l].
    + cbn [copy_n]. case_decide; [simpl in *; lia | done].
    + cbn [copy_n]. destruct n as [|n].
      * cbn. case_decide; [done | simpl in *; lia].
      * change (deref (IStream (b :: l))) with (Done b).
        change (incr (IStream (b :: l))) with (Done (IStream l)).
        rewrite !bind_Done, IH.
        repeat case_decide; simpl in *; try lia; done.
Qed.

Lemma read_key_Some env name content :
  ifstream_open env name = Some content →
  read_key env name
  = if decide (256 ≤ length content)%nat
    then Returned (take 256 content) else Unspecified.
Proof.
  intros Hopen. unfold read_key. rewrite Hopen.
  change (Z.to_nat keysize) with 256%nat. rewrite copy_n_istream.
  by case_decide.
Qed.

Lemma read_key_length env name key :
  read_key env name = Returned key → length key = 256%nat.
Proof.
  unfold read_key. destruct (ifstream_open env name) as [content|] eqn:Hopen;
    [|done].
  change (Z.to_nat keysize) with 256%nat. rewrite copy_n_istream.
  case_decide; [|done]. intros [= <-]. rewrite length_take. lia.
Qed.

Lemma crypt_mode_Done key (data : list Z) :
  length key = 256%nat →
  ∃ out, crypt_mode key data = Done out ∧ length out = length data.
Proof.
  intros Hk.
  destruct (crypt_mode_keystream key data Hk) as (g & ks & _ & _ & Hlen & Hc).
  eexists. split; [exact Hc|]. rewrite length_zip_with. lia.
Qed.

(** The dispatch of [main], by the shape of the command line. *)
Lemma main_try_dispatch env p command args :
  main_try env (p :: command :: args)
  = if (command =? "crypt")%string then
      match args with
      | name :: _ =>
          key ← read_key env name;
          out ← of_outcome (crypt_mode key (cin env));
          Returned (0, out)
      | [] => Returned (1, [])
      end
    else if (command =? "keystream")%string then
      match args with
      | name :: len :: _ =>
          key ← read_key env name;
          out ← of_outcome (keystream_mode key len);
          Returned (0, out)
      | _ => Returned (1, [])
      end
    else if (command =? "xor")%string then
      match args with
      | name_1 :: name_2 :: _ =>
          match fstream_open env name_1, fstream_open env name_2 with
          | Some file_1, Some file_2 =>
              out ← of_outcome (xor_mode file_1 file_2);
              Returned (0, out)
          | _, _ => Returned (2, [])
          end
      | _ => Returned (1, [])
      end
    else Returned (1, []).
Proof.
  unfold main_try, usage, argv_at.
  assert (∀ n : nat, ¬ Z.of_nat (S (S n)) < 2) as H2 by lia.
  cbn [length]. case_decide; [by destruct (H2 (length args))|].
  cbn -[String.eqb Z.of_nat].
  destruct (command =? "crypt")%string.
  { destruct args as [|name args]; cbn -[Z.of_nat]; case_decide; try lia; done. }
  destruct (command =? "keystream")%string.
  { destruct args as [|name [|len args]]; cbn -[Z.of_nat];
      case_decide; try lia; done. }
  destruct (command =? "xor")%string; [|done].
  destruct args as [|name_1 [|name_2 args]]; cbn -[Z.of_nat];
    case_decide; try lia; done.
Qed.

Lemma main_try_short env argv :
  (length argv < 2)%nat → main_try env argv = Returned (1, []).
Proof. intros Hlen. unfold main_try. case_decide; [done | lia]. Qed.

Lemma digits_value_nonneg (s : string) (acc : Z) :
  0 ≤ acc → 0 ≤ digits_value s acc.
Proof.
  revert acc. induction s as [|c s IH]; intros acc Hacc; simpl; [done|].
  destruct (isdigit c) eqn:Hd; [|done].
  apply IH. pose proof (digit_value_bounds c Hd). lia.
Qed.

(** What [std::stoul] returns is an [unsigned long]; it is never undefined. *)
Lemma stoul_range (s : string) :
  match stoul s with
  | Done n => 0 ≤ n ≤ ULONG_MAX
  | Throw _ => True
  | Undefined => False
  end.
Proof.
  unfold stoul.
  destruct (skip_space s) as [|c rest]; [done|].
  assert (∀ (neg : bool) (t : string),
    match
      match t with
      | String d _ =>
          if isdigit d then
            if decide (ULONG_MAX < digits_value t 0) then Throw out_of_range
            else Done (if neg then (- digits_value t 0) mod (ULONG_MAX + 1)
                       else digits_value t 0)
          else Throw invalid_argument
      | EmptyString => Throw invalid_argument
      end
    with
    | Done n => 0 ≤ n ≤ ULONG_MAX
    | Throw _ => True
    | Undefined => False
    end) as Hbody.
  { intros neg [|d t]; [done|]. destruct (isdigit d); [|done].
    case_decide; [done|].
    pose proof (digits_value_nonneg (String d t) 0 ltac:(lia)).
    destruct neg; [|lia].
    pose proof (Z.mod_pos_bound (- digits_value (String d t) 0) (ULONG_MAX + 1)
                  ltac:(unfold ULONG_MAX; lia)). lia. }
  destruct (c =? "-")%char; [exact (Hbody true rest)|].
  destruct (c =? "+")%char;
    [exact (Hbody false rest) | exact (Hbody false (String c rest))].
Qed.

(** The keystream mode on a key of 256 bytes: it throws what the conversion
    of the length throws, and otherwise writes as many bytes as the length
    says. *)
Lemma keystream_mode_cases key len :
  length key = 256%nat →
  match stoul len with
  | Done n =>
      ∃ out, keystream_mode key len = Done out ∧ Z.of_nat (length out) = n
  | Throw e => keystream_mode key len = Throw e
  | Undefined => False
  end.
Proof.
  intros Hk. pose proof (stoul_range len) as Hrange.
  destruct (stoul len) as [n|e|] eqn:Hlen; [| |done].
  - destruct (keystream_mode_Done key len n Hk Hlen) as (out & g & Hr & Hm).
    exists out. split; [done|].
    rewrite (generate_n_state_length _ _ _ _ Hr). lia.
  - unfold keystream_mode. by rewrite Hlen.
Qed.

Lemma read_key_Raised env name e :
  read_key env name = Raised e →
  e = runtime_error ∧ ifstream_open env name = None.
Proof.
  unfold read_key. destruct (ifstream_open env name) as [content|]; [|by intros [= <-]].
  change (Z.to_nat keysize) with 256%nat. rewrite copy_n_istream.
  by case_decide.
Qed.

(** What the [try] block of [main] can end in. *)
Lemma main_try_cases env argv :
  match main_try env argv with
  | Returned (code, out) => code = 0 ∨ out = [] ∧ (code = 1 ∨ code = 2)
  | Raised (logic_error e) =>
      ∃ p name len rest,
        argv = p :: "keystream"%string :: name :: len :: rest
        ∧ (∃ content, ifstream_open env name = Some content)
        ∧ stoul len = Throw e
  | Raised runtime_error =>
      ∃ p command name rest,
        argv = p :: command :: name :: rest ∧ ifstream_open env name = None
  | Unspecified => True
  end.
Proof.
  destruct argv as [|p [|command args]];
    [rewrite main_try_short by (simpl; lia); auto..|].
  rewrite main_try_dispatch.
  destruct (String.eqb_spec command "crypt") as [->|_].
  { destruct args as [|name rest]; [auto|].
    destruct (read_key env name) as [key|e|] eqn:Hkey; cbn; [| |done].
    - destruct (crypt_mode_Done key (cin env)) as (out & -> & _);
        [by eapply read_key_length|]. cbn. auto.
    - apply read_key_Raised in Hkey as [-> Hopen]. eauto 6. }
  destruct (String.eqb_spec command "keystream") as [->|_].
  { destruct args as [|name [|len rest]]; [auto..|].
    destruct (read_key env name) as [key|e|] eqn:Hkey; cbn; [| |done].
    - pose proof (keystream_mode_cases key len (read_key_length _ _ _ Hkey))
        as Hcases.
      destruct (stoul len) as [n|e|] eqn:Hlen; [| |done].
      + destruct Hcases as (out & -> & _). cbn. auto.
      + rewrite Hcases. cbn. exists p, name, len, rest. split_and!; try done.
        unfold read_key in Hkey.
        destruct (ifstream_open env name); [eauto | done].
    - apply read_key_Raised in Hkey as [-> Hopen]. eauto 6. }
  destruct (String.eqb_spec command "xor") as [->|_]; [|auto].
  destruct args as [|name_1 [|name_2 rest]]; [auto..|].
  destruct (fstream_open env name_1) as [file_1|]; [|auto].
  destruct (fstream_open env name_2) as [file_2|]; [|auto].
  unfold xor_mode.
  destruct (decide (length file_1 ≤ length file_2)%nat).
  - rewrite transform_istream_Done by done. cbn. auto.
  - rewrite transform_istream_Undefined by lia. done.
Qed.

Lemma crypt_mode_involutive key (data out : list Z) :
  length key = 256%nat → crypt_mode key data = Done out →
  crypt_mode key out = Done data.
Proof.
  intros Hk Hc.
  destruct (crypt_mode_keystream key data Hk) as (g & ks & Hm & Hks & Hlen & Hc').
  rewrite Hc in Hc'. injection Hc' as ->.
  destruct (crypt_mode_keystream key (zip_with Z.lxor data ks) Hk)
    as (g2 & ks2 & Hm2 & Hks2 & _ & ->).
  assert (g2 = g) as -> by congruence.
  rewrite length_zip_with, Hlen, Nat.min_id, Hks in Hks2.
  injection Hks2 as <-. by rewrite zip_with_lxor_twice by lia.
Qed.

Lemma main_try_usage_error env argv :
  usage_error argv = true → main_try env argv = Returned (1, []).
Proof.
  destruct argv as [|p [|command args]];
    [intros _; apply main_try_short; simpl; lia..|].
  rewrite main_try_dispatch. cbn [usage_error].
  destruct (command =? "crypt")%string.
  { by destruct args. }
  destruct (command =? "keystream")%string.
  { by destruct args as [|name [|len rest]]. }
  destruct (command =? "xor")%string; [|done].
  by destruct args as [|name_1 [|name_2 rest]].
Qed.

Lemma main_try_Returned_1 env argv out :
  main_try env argv = Returned (1, out) → usage_error argv = true ∧ out = [].
Proof.
  destruct argv as [|p [|command args]];
    [rewrite main_try_short by (simpl; lia); by intros [= <-]..|].
  rewrite main_try_dispatch. cbn [usage_error].
  destruct (command =? "crypt")%string.
  { destruct args as [|name rest]; [by intros [= <-]|].
    destruct (read_key env name) as [key| |]; cbn; [|done..].
    destruct (crypt_mode key (cin env)); cbn; done. }
  destruct (command =? "keystream")%string.
  { destruct args as [|name [|len rest]]; [by intros [= <-]..|].
    destruct (read_key env name) as [key| |]; cbn; [|done..].
    destruct (keystream_mode key len); cbn; done. }
  destruct (command =? "xor")%string; [|by intros [= <-]].
  destruct args as [|name_1 [|name_2 rest]]; [by intros [= <-]..|].
  destruct (fstream_open env name_1) as [file_1|]; [|done].
  destruct (fstream_open env name_2) as [file_2|]; [|done].
  destruct (xor_mode file_1 file_2); cbn; done.
Qed.

End Main.

Section MainProperties.
Import keystream_generator.
Implicit Types (env : environment) (argv rest : list string)
               (p command name len : string) (key content out : list Z).

(** X12: [read_key] throws [std::runtime_error] for a file that does not
    open; for a file of at least 256 bytes it returns the first 256 bytes
    and ignores the rest; for a shorter file it reads past the end of the
    file, and nothing is defined. *)
Theorem read_key_takes_256_bytes env name :
  read_key env name
  = match ifstream_open env name with
    | None => Raised runtime_error
    | Some content =>
        if decide (256 ≤ length content)%nat
        then Returned (take 256 content)
        else Unspecified
    end.
Proof.
  destruct (ifstream_open env name) as [content|] eqn:Hopen.
  - by apply read_key_Some.
  - unfold read_key. by rewrite Hopen.
Qed.

(** X13: [main] with the command crypt and a key file of at least 256
    bytes returns 0 and writes the crypt mode's output for the first 256
    bytes of the key file and standard input, one byte per input byte,
    whatever further arguments follow; run again on that output, it writes
    the original input. *)
Theorem main_crypt_round_trip env p name rest content :
  ifstream_open env name = Some content → (256 ≤ length content)%nat →
  ∃ out,
    main env (p :: "crypt"%string :: name :: rest) = Returned (0, out)
    ∧ crypt_mode (take 256 content) (cin env) = Done out
    ∧ length out = length (cin env)
    ∧ main (with_cin env out) (p :: "crypt"%string :: name :: rest)
      = Returned (0, cin env).
Proof.
  intros Hopen Hlen.
  assert (length (take 256 content) = 256%nat) as Hk
    by (rewrite length_take; lia).
  destruct (crypt_mode_Done (take 256 content) (cin env) Hk) as (out & Hc & Hout).
  pose proof (crypt_mode_involutive _ _ _ Hk Hc) as Hback.
  exists out. split_and!; try done.
  - unfold main. rewrite main_try_dispatch. cbn -[crypt_mode].
    rewrite (read_key_Some env name content Hopen).
    case_decide; [|lia]. cbn -[crypt_mode]. by rewrite Hc.
  - unfold main. rewrite main_try_dispatch. cbn -[crypt_mode].
    rewrite (read_key_Some (with_cin env out) name content Hopen).
    case_decide; [|lia]. cbn -[crypt_mode]. by rewrite Hback.
Qed.

Lemma main_crypt_round_trip_witness :
  ∃ out,
    main sample_environment ["terrible"; "crypt"; "key"]%string = Returned (0, out)
    ∧ crypt_mode (take 256 (identity_key ++ [10])) (cin sample_environment)
      = Done out
    ∧ length out = length (cin sample_environment)
    ∧ main (with_cin sample_environment out) ["terrible"; "crypt"; "key"]%string
      = Returned (0, cin sample_environment).
Proof.
  apply (main_crypt_round_trip sample_environment "terrible" "key" []
           (identity_key ++ [10]) eq_refl).
  vm_compute. lia.
Defined.

(** X14: [main] with the command keystream and a key file of at least 256
    bytes returns 0 and writes as many bytes as [std::stoul] makes of the
    length argument, the keystream mode's output for the first 256 bytes of
    the key file; when [std::stoul] throws, it returns 3 and writes
    nothing. *)
Theorem main_keystream env p name len rest content :
  ifstream_open env name = Some content → (256 ≤ length content)%nat →
  match stoul len with
  | Done n =>
      ∃ out,
        main env (p :: "keystream"%string :: name :: len :: rest)
        = Returned (0, out)
        ∧ keystream_mode (take 256 content) len = Done out
        ∧ Z.of_nat (length out) = n
  | _ =>
      main env (p :: "keystream"%string :: name :: len :: rest)
      = Returned (3, [])
  end.
Proof.
  intros Hopen Hlen.
  assert (length (take 256 content) = 256%nat) as Hk
    by (rewrite length_take; lia).
  pose proof (keystream_mode_cases (take 256 content) len Hk) as Hcases.
  assert (main_try env (p :: "keystream"%string :: name :: len :: rest)
          = (out ← of_outcome (keystream_mode (take 256 content) len);
             Returned (0, out))) as Hmain.
  { rewrite main_try_dispatch. cbn -[keystream_mode].
    rewrite (read_key_Some env name content Hopen).
    case_decide; [done | lia]. }
  unfold main. rewrite Hmain.
  destruct (stoul len) as [n|e|]; [| |done].
  - destruct Hcases as (out & Hm & Hn). exists out. by rewrite Hm.
  - by rewrite Hcases.
Qed.

Lemma main_keystream_witness :
  (∃ out,
     main sample_environment ["terrible"; "keystream"; "key"; "4"]%string
     = Returned (0, out)
     ∧ keystream_mode (take 256 (identity_key ++ [10])) "4" = Done out
     ∧ Z.of_nat (length out) = 4)
  ∧ main sample_environment ["terrible"; "keystream"; "key"; "four"]%string
    = Returned (3, []).
Proof.
  split.
  - apply (main_keystream sample_environment "terrible" "key" "4" []
             (identity_key ++ [10]) eq_refl).
    vm_compute. lia.
  - apply (main_keystream sample_environment "terrible" "key" "four" []
             (identity_key ++ [10]) eq_refl).
    vm_compute. lia.
Defined.

(** X15: [main] with the command xor returns 2 and writes nothing when one
    of the two files does not open; with both open and the first not longer
    than the second it returns 0 and writes their XOR over the length of the
    first; with a longer first file nothing is defined. *)
Theorem main_xor env p (name_1 name_2 : string) rest :
  main env (p :: "xor"%string :: name_1 :: name_2 :: rest)
  = match fstream_open env name_1, fstream_open env name_2 with
    | Some file_1, Some file_2 =>
        if decide (length file_1 ≤ length file_2)%nat
        then Returned (0, zip_with Z.lxor file_1 file_2)
        else Unspecified
    | _, _ => Returned (2, [])
    end.
Proof.
  unfold main. rewrite main_try_dispatch. cbn -[xor_mode].
  destruct (fstream_open env name_1) as [file_1|]; [|done].
  destruct (fstream_open env name_2) as [file_2|]; [|done].
  unfold xor_mode. case_decide.
  - by rewrite transform_istream_Done.
  - by rewrite transform_istream_Undefined by lia.
Qed.

(** X16: when the key file does not open, [main] returns 3 and writes
    nothing, for the command crypt and for the command keystream, whatever
    the length argument is. *)
Theorem main_key_file_missing env p name len rest :
  ifstream_open env name = None →
  main env (p :: "crypt"%string :: name :: rest) = Returned (3, [])
  ∧ main env (p :: "keystream"%string :: name :: len :: rest) = Returned (3, []).
Proof.
  intros Hopen. unfold main. rewrite !main_try_dispatch. cbn.
  unfold read_key. by rewrite Hopen.
Qed.

Lemma main_key_file_missing_witness :
  main sample_environment ["terrible"; "crypt"; "nokey"]%string = Returned (3, [])
  ∧ main sample_environment ["terrible"; "keystream"; "nokey"; "8"]%string
    = Returned (3, []).
Proof.
  exact (main_key_file_missing sample_environment "terrible" "nokey" "8" []
           eq_refl).
Defined.

(** X17: when the key file opens and holds fewer than 256 bytes, the size
    test of the generator's constructor is never reached: [read_key] reads
    past the end of the file, and nothing is defined for either command. *)
Theorem main_key_file_short env p name len rest content :
  ifstream_open env name = Some content → (length content < 256)%nat →
  main env (p :: "crypt"%string :: name :: rest) = Unspecified
  ∧ main env (p :: "keystream"%string :: name :: len :: rest) = Unspecified.
Proof.
  intros Hopen Hlen. unfold main. rewrite !main_try_dispatch.
  cbn -[crypt_mode keystream_mode].
  rewrite (read_key_Some env name content Hopen).
  by case_decide; [lia|].
Qed.

Lemma main_key_file_short_witness :
  main sample_environment ["terrible"; "crypt"; "short"]%string = Unspecified
  ∧ main sample_environment ["terrible"; "keystream"; "short"; "8"]%string
    = Unspecified.
Proof.
  apply (main_key_file_short sample_environment "terrible" "short" "8" []
           [1; 2; 3] eq_refl).
  simpl. lia.
Defined.

(** X18: [main] returns 1 exactly for the command lines that end in
    [usage] (no command, an unknown command, or fewer arguments than the
    command needs), whatever the files and standard input hold, and then it
    writes nothing to standard output. *)
Theorem main_returns_1_iff_usage env argv out :
  main env argv = Returned (1, out) ↔ usage_error argv = true ∧ out = [].
Proof.
  unfold main. split.
  - destruct (main_try env argv) as [[code o]| |] eqn:Hm; try done.
    intros [= -> ->]. by apply (main_try_Returned_1 env argv).
  - intros [Hu ->]. by rewrite (main_try_usage_error env argv Hu).
Qed.

Lemma main_returns_1_iff_usage_witness :
  main sample_environment ["terrible"; "keystream"; "key"]%string
  = Returned (1, []).
Proof.
  apply (main_returns_1_iff_usage sample_environment
           ["terrible"; "keystream"; "key"]%string []).
  split; reflexivity.
Defined.

(** X20: the [try] block of [main] raises an exception in two cases only:
    [std::runtime_error] when the key file does not open, and what
    [std::stoul] throws for the length argument of the command keystream.
    The size test of the generator's constructor never fails in [main]. *)
Theorem main_try_exceptions env argv (e : std_exception) :
  main_try env argv = Raised e →
  (e = runtime_error
   ∧ ∃ p command name rest,
       argv = p :: command :: name :: rest ∧ ifstream_open env name = None)
  ∨ (∃ e' p name len rest,
       e = logic_error e'
       ∧ argv = p :: "keystream"%string :: name :: len :: rest
       ∧ stoul len = Throw e').
Proof.
  intros Hm. pose proof (main_try_cases env argv) as Hcases.
  rewrite Hm in Hcases. destruct e as [e'|].
  - right. destruct Hcases as (p & name & len & rest & -> & _ & Hlen).
    by exists e', p, name, len, rest.
  - left. split; [done|]. exact Hcases.
Qed.

Lemma main_try_exceptions_witness :
  (runtime_error = runtime_error
   ∧ ∃ p command name rest,
       ["terrible"; "crypt"; "nokey"]%string = p :: command :: name :: rest
       ∧ ifstream_open sample_environment name = None)
  ∨ (∃ e' p name len rest,
       runtime_error = logic_error e'
       ∧ ["terrible"; "crypt"; "nokey"]%string
         = p :: "keystream"%string :: name :: len :: rest
       ∧ stoul len = Throw e').
Proof.
  exact (main_try_exceptions sample_environment
           ["terrible"; "crypt"; "nokey"]%string runtime_error eq_refl).
Defined.

End MainProperties.

Section LengthArgument.
Implicit Types (s ws rest : string) (c : ascii) (key : list Z).

Lemma numeral_head s n :
  decimal_numeral s = Some n →
  ∃ c s' ds, s = String c s' ∧ isdigit c = true
             ∧ numeral_digits s = Some ds ∧ digits_number ds = n.
Proof.
  destruct s as [|c s']; [done|]. unfold decimal_numeral.
  destruct (numeral_digits (String c s')) as [ds|] eqn:Hds; [|done].
  intros [= <-]. exists c, s', ds. split_and!; try done.
  simpl in Hds. by destruct (isdigit c).
Qed.

Lemma skip_space_app ws s :
  all_space ws = true → skip_space (ws ++ s) = skip_space s.
Proof.
  induction ws as [|c ws IH]; [done|]. simpl.
  intros [Hc Hws]%andb_true_iff. rewrite Hc. by apply IH.
Qed.

Lemma digits_value_app s rest ds (acc : Z) :
  numeral_digits s = Some ds → starts_with_digit rest = false →
  digits_value (s ++ rest) acc = digits_value s acc.
Proof.
  intros Hds Hrest. revert ds acc Hds.
  induction s as [|c s IH]; intros ds acc; simpl.
  - intros _. destruct rest as [|d rest]; [done|]. simpl in *. by rewrite Hrest.
  - destruct (isdigit c); [|done].
    destruct (numeral_digits s) as [ds'|]; [|done]. intros _.
    by apply (IH ds').
Qed.

(** The conversion of a digit string that is followed by something other
    than a digit. *)
Lemma stoul_numeral_app s rest n :
  decimal_numeral s = Some n → starts_with_digit rest = false →
  stoul (s ++ rest) = stoul s.
Proof.
  intros Hnum Hrest.
  destruct (numeral_head s n Hnum) as (c & s' & ds & -> & Hd & Hds & _).
  destruct (isdigit_not_sign c Hd) as [Hm Hp].
  unfold stoul.
  change (String c s' ++ rest)%string with (String c (s' ++ rest)).
  rewrite !skip_space_stop by (by apply isdigit_not_space).
  rewrite Hm, Hp, Hd.
  change (String c (s' ++ rest)) with (String c s' ++ rest)%string.
  by rewrite (digits_value_app _ rest ds 0 Hds Hrest).
Qed.

Lemma stoul_plus s :
  starts_with_digit s = true → stoul (String "+" s) = stoul s.
Proof.
  destruct s as [|c s']; [done|]. simpl. intros Hd.
  destruct (isdigit_not_sign c Hd) as [Hm Hp].
  unfold stoul. rewrite !skip_space_stop by (reflexivity || by apply isdigit_not_space).
  cbn -[isdigit digits_value]. by rewrite Hm, Hp, Hd.
Qed.

Lemma stoul_minus s n :
  decimal_numeral s = Some n → n ≤ ULONG_MAX →
  stoul (String "-" s) = Done ((- n) mod (ULONG_MAX + 1)).
Proof.
  intros Hnum Hle.
  destruct (numeral_head s n Hnum) as (c & s' & ds & -> & Hd & Hds & Hn).
  unfold stoul. rewrite skip_space_stop by reflexivity.
  cbn -[isdigit digits_value]. rewrite Hd.
  rewrite (digits_value_numeral _ ds 0 Hds). simpl (0 * _ + _). rewrite Hn.
  case_decide; [lia | done].
Qed.

Lemma stoul_skips_space ws s : all_space ws = true → stoul (ws ++ s) = stoul s.
Proof. intros Hws. unfold stoul. by rewrite skip_space_app. Qed.

(** X21: for a length argument that is a minus sign followed by decimal
    digits denoting [m], with [1 ≤ m ≤ ULONG_MAX], the keystream mode does
    not fail: it writes [ULONG_MAX + 1 - m] bytes. *)
Theorem keystream_mode_negative_length key s (m : Z) :
  length key = 256%nat → decimal_numeral s = Some m → 1 ≤ m ≤ ULONG_MAX →
  ∃ out,
    keystream_mode key (String "-" s) = Done out
    ∧ Z.of_nat (length out) = ULONG_MAX + 1 - m.
Proof.
  intros Hk Hnum Hm.
  assert (stoul (String "-" s) = Done (ULONG_MAX + 1 - m)) as Harg.
  { rewrite (stoul_minus s m Hnum) by lia. f_equal.
    replace (- m) with (ULONG_MAX + 1 - m + -1 * (ULONG_MAX + 1)) by lia.
    rewrite Z.mod_add by (unfold ULONG_MAX; lia).
    apply Z.mod_small. lia. }
  destruct (keystream_mode_Done key _ _ Hk Harg) as (out & g & Hr & Hmode).
  exists out. split; [exact Hmode|].
  rewrite (generate_n_state_length _ _ _ _ Hr). apply Z2Nat.id. lia.
Qed.

Lemma keystream_mode_negative_length_witness :
  ∃ out,
    keystream_mode identity_key "-18446744073709551613" = Done out
    ∧ Z.of_nat (length out) = ULONG_MAX + 1 - 18446744073709551613.
Proof.
  apply (keystream_mode_negative_length identity_key "18446744073709551613"
           18446744073709551613 eq_refl eq_refl).
  split; discriminate.
Defined.

(** X22: white space before the number, a plus sign in front of the digits
    and any text that follows the digits and does not begin with a digit are
    ignored by the keystream mode: it does what it does on the digits
    alone. *)
Theorem keystream_mode_ignores_decoration key ws s rest (n : Z) :
  decimal_numeral s = Some n → all_space ws = true →
  starts_with_digit rest = false →
  keystream_mode key (ws ++ s ++ rest) = keystream_mode key s
  ∧ keystream_mode key (ws ++ String "+" (s ++ rest)) = keystream_mode key s.
Proof.
  intros Hnum Hws Hrest. unfold keystream_mode.
  pose proof (stoul_numeral_app s rest n Hnum Hrest) as Happ.
  split.
  - by rewrite (stoul_skips_space ws (s ++ rest) Hws), Happ.
  - rewrite (stoul_skips_space ws (String "+" (s ++ rest)) Hws).
    rewrite stoul_plus, Happ; [done|].
    destruct (numeral_head s n Hnum) as (c & s' & ds & -> & Hd & _). exact Hd.
Qed.

Lemma keystream_mode_ignores_decoration_witness :
  keystream_mode identity_key (" " ++ "12" ++ "abc") = keystream_mode identity_key "12"
  ∧ keystream_mode identity_key (" " ++ String "+" ("12" ++ "abc"))
    = keystream_mode identity_key "12".
Proof.
  exact (keystream_mode_ignores_decoration identity_key " " "12" "abc" 12
           eq_refl eq_refl eq_refl).
Defined.

End LengthArgument.
